(** * TicTacToeAreaController: the client-side mirror of a Tic Tac Toe game

    A shallow embedding of the TypeScript class [TicTacToeAreaController]
    (frontend/src/classes/interactable/TicTacToeAreaController.ts) and the
    properties of its derived getters, of its update protocol and of
    [makeMove].

    Conventions of the embedding:
    - a JavaScript value that may be [undefined] is an [option];
    - a JavaScript array is a [list]; a write past the end of an array
      extends it, the holes reading as [undefined];
    - code that may throw returns a [completion];
    - [emit] appends to a log of events, the command channel to a log of
      calls;
    - objects compared with [===] (the player controllers) carry their
      address, so that two distinct objects may have the same [id]. *)

From Stdlib Require Import Ascii.
From stdpp Require Import base list strings pretty.

(** ** Data model (types/CoveyTownSocket) *)

Definition PlayerID := string.
Definition GameInstanceID := string.

Inductive GameStatus := IN_PROGRESS | WAITING_TO_START | OVER.

Inductive GamePiece := X | O.

(** [TicTacToeCell = 'X' | 'O' | undefined] *)
Abbreviation TicTacToeCell := (option GamePiece).

(** [TicTacToeGridPosition = 0 | 1 | 2]: a number at run time. The
    embedding keeps a natural number and says what the code does with the
    positions of the type and with those above it; the negative and the
    fractional numbers, and NaN, are not represented. *)
Definition TicTacToeGridPosition := nat.

Record TicTacToeMove := {
  mv_gamePiece : GamePiece;
  mv_row : TicTacToeGridPosition;
  mv_col : TicTacToeGridPosition
}.

Record TicTacToeGameState := {
  gs_moves : list TicTacToeMove;
  gs_x : option PlayerID;
  gs_o : option PlayerID;
  gs_winner : option PlayerID;
  gs_status : GameStatus
}.

Record GameInstance := {
  game_id : GameInstanceID;
  game_players : list PlayerID;
  game_state : TicTacToeGameState
}.

Record GameArea := {
  area_game : option GameInstance;
  area_occupants : list PlayerID
}.

(** A [PlayerController] object: [pc_ref] is the address of the object,
    [pc_id] its [id] property. [===] on two controllers is equality of the
    records. *)
Record PlayerController := {
  pc_ref : nat;
  pc_id : PlayerID
}.

(** [ourPlayer] is the controller of the local player, an object that the
    class compares with [===] and whose [id] it reads (on an object the
    optional chaining [ourPlayer?.id] is a plain read); [town_players] are
    the player controllers the town knows. *)
Record TownController := {
  ourPlayer : PlayerController;
  town_players : list PlayerController
}.

(** The fields of the controller that the class reads: [_model],
    [_players] (behind the inherited getter [players]), [_instanceID] and
    [_townController]. *)
Record Controller := {
  _model : GameArea;
  _players : list PlayerController;
  _instanceID : option GameInstanceID;
  _townController : TownController
}.

#[global] Instance GameStatus_eq_dec : EqDecision GameStatus.
Proof. solve_decision. Defined.
#[global] Instance GamePiece_eq_dec : EqDecision GamePiece.
Proof. solve_decision. Defined.
#[global] Instance PlayerController_eq_dec : EqDecision PlayerController.
Proof. solve_decision. Defined.

(** ** Errors and completions *)

Inductive JsError :=
  | Error (message : string)
  | TypeError (message : string).

Inductive completion (A : Type) :=
  | Return (a : A)
  | Throw (e : JsError).
Arguments Return {A} a.
Arguments Throw {A} e.

Definition bind {A B} (m : completion A) (k : A -> completion B) : completion B :=
  match m with
  | Return a => k a
  | Throw e => Throw e
  end.

Notation "'let*' a ':=' m 'in' k" := (bind m (fun a => k))
  (at level 10, a name, m at level 100, k at level 200).

Definition PLAYER_NOT_IN_GAME_ERROR : string := "Player is not in game".
Definition NO_GAME_IN_PROGRESS_ERROR : string := "No game in progress".

(** ** JavaScript helpers *)

(** Truthiness of a value of type [string | undefined]: [undefined] and the
    empty string are falsy. *)
Definition truthy (s : option string) : bool :=
  match s with
  | None => false
  | Some EmptyString => false
  | Some (String _ _) => true
  end.

(** [arr[i] = v]: in range the element is replaced; out of range the array
    grows to length [i + 1], the new elements before [i] being holes. This
    is the write at an array index, a number below 2^32 - 1 (see
    [array_index]); a larger number names a plain property and is not
    modelled. *)
Definition array_set {A} (arr : list (option A)) (i : nat) (v : option A)
  : list (option A) :=
  if decide (i < length arr) then <[i := v]> arr
  else arr ++ replicate (i - length arr) None ++ [v].

(** ** The board *)

Abbreviation Board := (list (list TicTacToeCell)).

Definition emptyBoard : Board :=
  [ [None; None; None];
    [None; None; None];
    [None; None; None] ].

(** [board[currMove.row][currMove.col] = currMove.gamePiece]: reading
    [board[row]] out of range gives [undefined], and writing a property of
    [undefined] throws a TypeError. *)
Definition write_move (board : Board) (currMove : TicTacToeMove)
  : completion Board :=
  match board !! mv_row currMove with
  | None => Throw (TypeError "Cannot set properties of undefined")
  | Some r =>
      Return (<[mv_row currMove :=
                  array_set r (mv_col currMove) (Some (mv_gamePiece currMove))]> board)
  end.

(** The [for] loop of the [board] getter, over the moves still to replay. *)
Fixpoint replay (board : Board) (moves : list TicTacToeMove) : completion Board :=
  match moves with
  | [] => Return board
  | currMove :: rest =>
      let* board' := write_move board currMove in replay board' rest
  end.

(** [board[r][c]], [undefined] when there is no such element. *)
Definition cellAt (b : Board) (r c : nat) : TicTacToeCell :=
  match b !! r with
  | Some rw => match rw !! c with Some v => v | None => None end
  | None => None
  end.

(** [this._model.game?.state] *)
Definition gameState (c : Controller) : option TicTacToeGameState :=
  game_state <$> area_game (_model c).

(** [this._model.game?.state.moves || []] *)
Definition movesOf (m : GameArea) : list TicTacToeMove :=
  match area_game m with
  | Some g => gs_moves (game_state g)
  | None => []
  end.

(** The body of [get board()], for the model it reads. *)
Definition boardOf (m : GameArea) : completion Board :=
  replay emptyBoard (movesOf m).

(** [get board()] *)
Definition board (c : Controller) : completion Board := boardOf (_model c).

(** ** [JSON.stringify] on boards *)

Module JSON.

Definition dquote : ascii := "034"%char.

(** A string value is printed between double quotes; [undefined] inside
    an array (and a hole) is printed as [null]. *)
Definition stringify_cell (v : TicTacToeCell) : string :=
  match v with
  | None => "null"
  | Some X => String dquote (String "X" (String dquote EmptyString))
  | Some O => String dquote (String "O" (String dquote EmptyString))
  end.

(** The elements after the first one, each after a comma. *)
Fixpoint more_elements (elems : list string) : string :=
  match elems with
  | [] => EmptyString
  | e :: rest => "," +:+ e +:+ more_elements rest
  end.

Definition elements (elems : list string) : string :=
  match elems with
  | [] => EmptyString
  | e :: rest => e +:+ more_elements rest
  end.

Definition stringify_array (elems : list string) : string :=
  "[" +:+ elements elems +:+ "]".

Definition stringify_row (r : list TicTacToeCell) : string :=
  stringify_array (map stringify_cell r).

Definition stringify (b : Board) : string :=
  stringify_array (map stringify_row b).

(** A printer of values whose output can be read back from the front of
    a longer text: printing two values followed by any texts gives the
    same text only for the same value and the same rest. *)
Definition self_delimiting {A} (print : A -> string) : Prop :=
  ∀ a b s t, print a +:+ s = print b +:+ t → a = b ∧ s = t.

(** No printed value is empty or starts with a closing bracket. *)
Definition starts_value {A} (print : A -> string) : Prop :=
  ∀ a, ∃ ch rest, print a = String ch rest ∧ ch ≠ "]"%char.

End JSON.

(** ** Events and the command channel *)

(** [TicTacToeEvents = GameEventTypes & { boardChanged; turnChanged }];
    the events of the base class are kept abstract. *)
Inductive TicTacToeEvents (GameEventTypes : Type) :=
  | boardChanged (board : Board)
  | turnChanged (isOurTurn : bool)
  | inherited (e : GameEventTypes).
Arguments boardChanged {GameEventTypes} board.
Arguments turnChanged {GameEventTypes} isOurTurn.
Arguments inherited {GameEventTypes} e.

(** The payloads of the [boardChanged] events of a log, in order. *)
Fixpoint boardChangedEvents {G} (log : list (TicTacToeEvents G)) : list Board :=
  match log with
  | [] => []
  | boardChanged b :: rest => b :: boardChangedEvents rest
  | _ :: rest => boardChangedEvents rest
  end.

(** The payloads of the [turnChanged] events of a log, in order. *)
Fixpoint turnChangedEvents {G} (log : list (TicTacToeEvents G)) : list bool :=
  match log with
  | [] => []
  | turnChanged t :: rest => t :: turnChangedEvents rest
  | _ :: rest => turnChangedEvents rest
  end.

(** [{ type: 'GameMove', gameID, move }] *)
Record GameMoveCommand := {
  cmd_gameID : GameInstanceID;
  cmd_move : TicTacToeMove
}.

(** One call of [sendInteractableCommand(instanceID, command)]. *)
Record ChannelCall := {
  call_instanceID : GameInstanceID;
  call_command : GameMoveCommand
}.

(** What a run of [_updateFrom] leaves behind: the controller, the events
    emitted and how the call completed. *)
Record UpdateOutcome (G : Type) := {
  upd_controller : Controller;
  upd_emitted : list (TicTacToeEvents G);
  upd_completion : completion unit
}.
Arguments upd_controller {G} _.
Arguments upd_emitted {G} _.
Arguments upd_completion {G} _.

(** What a call of [makeMove] leaves behind: the calls made on the command
    channel and how the promise settled. *)
Record MoveOutcome := {
  mo_calls : list ChannelCall;
  mo_completion : completion unit
}.

(** ** The getters of the class *)

(** [this._model.game?.state.x] and [this._model.game?.state.o] *)
Definition roleX (c : Controller) : option PlayerID := gameState c ≫= gs_x.
Definition roleO (c : Controller) : option PlayerID := gameState c ≫= gs_o.

(** [get x()]: [players.find(player => game?.state.x === player.id)] *)
Definition x (c : Controller) : option PlayerController :=
  find (fun player => bool_decide (roleX c = Some (pc_id player))) (_players c).

(** [get o()] *)
Definition o (c : Controller) : option PlayerController :=
  find (fun player => bool_decide (roleO c = Some (pc_id player))) (_players c).

(** [get moveCount()] *)
Definition moveCount (c : Controller) : nat := length (movesOf (_model c)).

(** [get winner()] *)
Definition winner (c : Controller) : option PlayerController :=
  find (fun player => bool_decide (gameState c ≫= gs_winner = Some (pc_id player)))
       (_players c).

(** The [for (const player of players)] loop of [whoseTurn]. *)
Fixpoint whoseTurn_loop (count : nat) (gs : TicTacToeGameState)
    (players : list PlayerController) : option PlayerController :=
  match players with
  | [] => None
  | player :: rest =>
      if (count mod 2 =? 0)%nat && truthy (gs_x gs)
         && bool_decide (Some (pc_id player) = gs_x gs)
      then Some player
      else if negb (count mod 2 =? 0)%nat && truthy (gs_o gs)
              && bool_decide (Some (pc_id player) = gs_o gs)
      then Some player
      else whoseTurn_loop count gs rest
  end.

(** [get whoseTurn()] *)
Definition whoseTurn (c : Controller) : option PlayerController :=
  match gameState c with
  | Some gs =>
      if bool_decide (gs_status gs = IN_PROGRESS)
      then whoseTurn_loop (moveCount c) gs (_players c)
      else None
  | None => None
  end.

(** [get isOurTurn()] *)
Definition isOurTurn (c : Controller) : bool :=
  match gameState c with
  | None => false
  | Some gs =>
      if bool_decide (gs_status gs ≠ IN_PROGRESS) then false
      else bool_decide (Some (ourPlayer (_townController c)) = whoseTurn c)
  end.

(** [get isPlayer()] *)
Definition isPlayer (c : Controller) : bool :=
  bool_decide (roleX c = Some (pc_id (ourPlayer (_townController c))))
  || bool_decide (roleO c = Some (pc_id (ourPlayer (_townController c))))
  || false.

(** [get gamePiece()] *)
Definition gamePiece (c : Controller) : completion GamePiece :=
  if negb (isPlayer c) then Throw (Error PLAYER_NOT_IN_GAME_ERROR)
  else
    let currentPlayer := ourPlayer (_townController c) in
    Return (if bool_decide (Some currentPlayer = x c) then X else O).

(** [get status()]: [game?.state.status || 'WAITING_TO_START'] *)
Definition status (c : Controller) : GameStatus :=
  match gameState c with
  | Some gs => gs_status gs
  | None => WAITING_TO_START
  end.

(** [isActive()] *)
Definition isActive (c : Controller) : bool :=
  if bool_decide (status c = IN_PROGRESS) then true else false.

(** [whoseTurn?.id] *)
Definition turnId (c : Controller) : option PlayerID := pc_id <$> whoseTurn c.

(** ** The base class, for the examples *)

Inductive GameEventTypes := gameUpdated | gameEnd.

(** Modelled from the spec: [_updateFrom] of the base class
    [GameAreaController], which is not part of the sources. It replaces the
    current snapshot with the new one, refreshes the player roster from the
    players the new snapshot names (resolved among the players of the
    town), takes over the instance identifier of the new game, and emits
    the two inherited events. *)
Definition base_updateFrom (c : Controller) (newModel : GameArea)
  : Controller * list GameEventTypes :=
  let known := town_players (_townController c) in
  let newPlayers :=
    match area_game newModel with
    | Some g =>
        omap (fun playerID =>
                find (fun p => bool_decide (pc_id p = playerID)) known)
             (game_players g)
    | None => []
    end in
  let gameEnding :=
    bool_decide (status c = IN_PROGRESS)
    && bool_decide (gs_status <$> (game_state <$> area_game newModel) = Some OVER) in
  ({| _model := newModel;
      _players := newPlayers;
      _instanceID :=
        match area_game newModel with
        | Some g => Some (game_id g)
        | None => _instanceID c
        end;
      _townController := _townController c |},
   gameUpdated :: (if gameEnding then [gameEnd] else [])).

(** Modelled from the spec: a command channel on which the authority
    acknowledges every move. *)
Definition acknowledging_channel (instanceID : GameInstanceID)
    (command : GameMoveCommand) : completion unit :=
  Return tt.

(** ** Notions of the specification *)

(** A move of a well-typed snapshot has its row and column in {0,1,2}. *)
Definition in_grid (mv : TicTacToeMove) : Prop := mv_row mv < 3 ∧ mv_col mv < 3.

Definition well_typed (m : GameArea) : Prop := Forall in_grid (movesOf m).



(** The move writes the cell at row [r], column [k]. *)
Definition targets (mv : TicTacToeMove) (r k : nat) : Prop :=
  mv_row mv = r ∧ mv_col mv = k.

(** The board of the specification, a grid of cells by position:
    [deriveBoard] starts from the all-empty grid and replays the moves in
    order, each writing its piece at its row and column. *)
Definition Grid := nat -> nat -> TicTacToeCell.

Definition emptyGrid : Grid := fun _ _ => None.

Definition place (g : Grid) (mv : TicTacToeMove) : Grid :=
  fun r k => if decide (targets mv r k) then Some (mv_gamePiece mv) else g r k.

Definition deriveBoard (moves : list TicTacToeMove) : Grid :=
  fold_left place moves emptyGrid.

(** Three rows of three cells. *)
Definition is3x3 (b : Board) : Prop :=
  length b = 3 ∧ Forall (fun r => length r = 3) b.

(** Two boards differ position-wise in at least one cell. *)
Definition differ (b1 b2 : Board) : Prop :=
  ∃ r k, r < 3 ∧ k < 3 ∧ cellAt b1 r k ≠ cellAt b2 r k.

(** The local player's identifier. *)
Definition ourId (c : Controller) : PlayerID := pc_id (ourPlayer (_townController c)).


(** The game piece as the specification states it, from the identifiers
    alone. *)
Definition gamePiece_as_stated (c : Controller) : Prop :=
  isPlayer c = true →
  (roleX c = Some (ourId c) → gamePiece c = Return X)
  ∧ (roleO c = Some (ourId c) → gamePiece c = Return O).

(** The roster resolves an identifier to the player: the first player of
    the roster with this identifier is this very object. *)
Definition resolves (players : list PlayerController) (p : PlayerController) : Prop :=
  find (fun q => bool_decide (Some (pc_id p) = Some (pc_id q))) players = Some p.

(** ** Sample data *)

Definition alice : PlayerController := {| pc_ref := 1; pc_id := "alice" |}.
Definition bob : PlayerController := {| pc_ref := 2; pc_id := "bob" |}.
(** A player whose identifier is the empty string. *)
Definition nameless : PlayerController := {| pc_ref := 3; pc_id := EmptyString |}.

Definition town (us : PlayerController) : TownController :=
  {| ourPlayer := us; town_players := [alice; bob; nameless] |}.

Definition move (piece : GamePiece) (r k : nat) : TicTacToeMove :=
  {| mv_gamePiece := piece; mv_row := r; mv_col := k |}.

Definition gameOf (st : GameStatus) (px po : option PlayerID)
    (players : list PlayerID) (moves : list TicTacToeMove) : GameArea :=
  {| area_game :=
       Some {| game_id := "game-1";
               game_players := players;
               game_state := {| gs_moves := moves; gs_x := px; gs_o := po;
                                gs_winner := None; gs_status := st |} |};
     area_occupants := players |}.

Definition noGame : GameArea := {| area_game := None; area_occupants := [] |}.

Definition controllerOf (m : GameArea) (roster : list PlayerController)
    (us : PlayerController) : Controller :=
  {| _model := m; _players := roster;
     _instanceID := game_id <$> area_game m;
     _townController := town us |}.

Definition carol : PlayerController := {| pc_ref := 4; pc_id := "carol" |}.

(** A controller that holds a game but no instance identifier. *)
Definition detached (m : GameArea) (roster : list PlayerController)
    (us : PlayerController) : Controller :=
  {| _model := m; _players := roster; _instanceID := None;
     _townController := town us |}.

(** Alice plays X against Bob; no move yet, then one move, then two. *)
Definition opening : GameArea :=
  gameOf IN_PROGRESS (Some "alice") (Some "bob") ["alice"; "bob"] [].
Definition afterOne : GameArea :=
  gameOf IN_PROGRESS (Some "alice") (Some "bob") ["alice"; "bob"] [move X 1 1].
Definition afterTwo : GameArea :=
  gameOf IN_PROGRESS (Some "alice") (Some "bob") ["alice"; "bob"]
         [move X 1 1; move O 1 1].

(** The opening position once the game is over, and with another list of
    occupants. *)
Definition abandoned : GameArea :=
  gameOf OVER (Some "alice") (Some "bob") ["alice"; "bob"] [].
Definition openingWatched : GameArea :=
  {| area_game := area_game opening;
     area_occupants := ["alice"; "bob"; "carol"] |}.

(** A game whose roles are not assigned, before and after a move. *)
Definition unassigned (moves : list TicTacToeMove) : GameArea :=
  gameOf IN_PROGRESS None None [] moves.

(** Role X is held by the player whose identifier is the empty string. *)
Definition namelessGame : GameArea :=
  gameOf IN_PROGRESS (Some EmptyString) (Some "bob") [EmptyString; "bob"] [].

(** Role X names Alice, but the players of the game do not. *)
Definition unlisted : GameArea :=
  gameOf IN_PROGRESS (Some "alice") (Some "bob") ["bob"] [].

(** Both roles name Alice. *)
Definition bothRoles : GameArea :=
  gameOf IN_PROGRESS (Some "alice") (Some "alice") ["alice"] [].

(** A snapshot that is not well typed: a move on row 3. *)
Definition offGrid : GameArea :=
  gameOf IN_PROGRESS (Some "alice") (Some "bob") ["alice"; "bob"] [move X 3 0].

(** ** The components (components/Town/interactables/TicTacToe) *)

(** The text of a number in a template literal. The numbers printed here
    are array indices and array lengths, non-negative integers below 2^32,
    which JavaScript prints in decimal. *)
Definition numberText (n : nat) : string := pretty n.

(** One [StyledTicTacToeSquare] element: its [key], its [aria-label] and
    its child, the value of the cell. *)
Record Square := {
  sq_key : string;
  sq_ariaLabel : string;
  sq_children : TicTacToeCell
}.

(** [row.map((cellValue, colIndex) => <StyledTicTacToeSquare ... />)] *)
Definition renderRow (rowIndex : nat) (row : list TicTacToeCell) : list Square :=
  imap (λ colIndex cellValue,
          {| sq_key := numberText rowIndex +:+ "-" +:+ numberText colIndex;
             sq_ariaLabel :=
               "Cell " +:+ numberText rowIndex +:+ "," +:+ numberText colIndex;
             sq_children := cellValue |})
       row.

(** [TicTacToeBoard({ gameAreaController })]: the children of the board
    element, one array of squares for each row of
    [gameAreaController.board]. [map] skips the holes of a row that a move on
    a column off the grid has extended, where the embedding, in which a hole
    is a cell that reads [undefined], has a square; the two agree on the
    boards without holes, those of the well-typed models. *)
Definition TicTacToeBoard (c : Controller) : completion (list (list Square)) :=
  let* b := board c in Return (imap renderRow b).

(** ['X'.toLowerCase()] and ['O'.toLowerCase()], the same in every locale. *)
Definition pieceLower (piece : GamePiece) : string :=
  match piece with X => "x" | O => "o" end.

(** [s || fallback], for a string [s] that may be [undefined]. *)
Definition orElse (s : option string) (fallback : string) : string :=
  if truthy s then default fallback s else fallback.

Inductive ToastStatus := success | error | info.

(** The options of one call of [toast]. *)
Record Toast := {
  toast_title : string;
  toast_description : string;
  toast_status : ToastStatus;
  toast_duration : nat;
  toast_isClosable : bool
}.

(** What [TicTacToeArea] computes itself for its element: the two items of
    [PlayersList], the game message, the Join New Game button with its
    [isLoading] when it is rendered, and the board component, which
    renders on its own. The leaderboard and the list of observers show what
    the base class holds and are left out. *)
Record AreaView := {
  view_players : list string;
  view_message : string;
  view_joinButton : option bool;
  view_board : completion (list (list Square))
}.

Inductive Rendered :=
  | Loading
  | Area (view : AreaView).

Section Components.

(** The [userName] of a player controller, and [toLocaleLowerCase] of the
    locale of the browser. *)
Variable userName : PlayerController -> string.
Variable toLocaleLowerCase : string -> string.

(** [PlayersList({ xPlayer, oPlayer })] *)
Definition PlayersList (xPlayer oPlayer : option PlayerController) : list string :=
  [ "X: " +:+ orElse (userName <$> xPlayer) "(No player yet!)";
    "O: " +:+ orElse (userName <$> oPlayer) "(No player yet!)" ].

(** [gameEndEventHandler]: the toast that it shows. The left operand of
    [===] is evaluated first and does not throw; the read of [gamePiece] in
    the right operand may. *)
Definition gameEndEventHandler (c : Controller) : completion Toast :=
  let winner := winner c in
  let* piece := gamePiece c in
  if bool_decide (toLocaleLowerCase <$> (pc_id <$> winner)
                  = Some ("player " +:+ pieceLower piece))
  then Return {| toast_title := "Congratulations!";
                 toast_description := "You won!";
                 toast_status := success;
                 toast_duration := 5000; toast_isClosable := true |}
  else if winner is Some _
  then Return {| toast_title := "Game Over";
                 toast_description := "You lost :(";
                 toast_status := error;
                 toast_duration := 5000; toast_isClosable := true |}
  else Return {| toast_title := "Game Over";
                 toast_description := "Game ended in a tie";
                 toast_status := info;
                 toast_duration := 5000; toast_isClosable := true |}.

(** The body of [TicTacToeArea] after its hooks, for the values of its
    states [gameStatus] ([null] before the first effect) and [isLoading]. *)
Definition TicTacToeArea (gameStatus : option GameStatus) (isLoading : bool)
    (c : Controller) : completion Rendered :=
  match gameStatus with
  | None => Return Loading
  | Some gameStatus =>
      let* currentPlayerPiece := gamePiece c in
      let currentPlayerID := turnId c in
      let currentPlayerTurn :=
        if bool_decide (currentPlayerID
                        = Some ("player " +:+ pieceLower currentPlayerPiece))
        then "your"
        else if truthy (userName <$> whoseTurn c)
        then default EmptyString (userName <$> whoseTurn c) +:+ "'s"
        else "unknown player" in
      let gameMessage :=
        if bool_decide (gameStatus = IN_PROGRESS)
        then "Game in progress, " +:+ numberText (moveCount c)
             +:+ " moves in, currently " +:+ currentPlayerTurn +:+ " turn."
        else "Game "
             +:+ (if bool_decide (gameStatus = WAITING_TO_START)
                  then "not yet started" else "over")
             +:+ "." in
      Return (Area
        {| view_players := PlayersList (x c) (o c);
           view_message := gameMessage;
           view_joinButton :=
             if (bool_decide (gameStatus = WAITING_TO_START)
                 || bool_decide (gameStatus = OVER))
                && negb (isPlayer c)
             then Some isLoading else None;
           view_board := TicTacToeBoard c |})
  end.

End Components.

(** The players of the samples show their identifier as their name, and
    the identifiers of the samples are in lower case already. *)
Definition sampleName (p : PlayerController) : string := pc_id p.
Definition sampleLowerCase (s : string) : string := s.

(** Alice has won the game. *)
Definition aliceWon : GameArea :=
  {| area_game :=
       Some {| game_id := "game-1";
               game_players := ["alice"; "bob"];
               game_state := {| gs_moves := [move X 0 0; move O 1 0; move X 0 1;
                                             move O 1 1; move X 0 2];
                                gs_x := Some "alice"; gs_o := Some "bob";
                                gs_winner := Some "alice"; gs_status := OVER |} |};
     area_occupants := ["alice"; "bob"] |}.

(** ** The commands of the class *)

Section Commands.

(** The events of the base class, its [_updateFrom] and the command
    channel of the town controller are outside this class. *)
Variable G : Type.
Variable super_updateFrom : Controller -> GameArea -> Controller * list G.
Variable sendInteractableCommand :
  GameInstanceID -> GameMoveCommand -> completion unit.

(** The contract of the base class that the update protocol relies on:
    [super._updateFrom] makes the new model the current one. *)
Hypothesis super_installs_model :
  ∀ c newModel, _model (super_updateFrom c newModel).1 = newModel.

(** [_updateFrom(newModel)] *)
Definition _updateFrom (c : Controller) (newModel : GameArea) : UpdateOutcome G :=
  match board c with
  | Throw e =>
      {| upd_controller := c; upd_emitted := []; upd_completion := Throw e |}
  | Return oldBoard =>
      let oldTurn := turnId c in
      let '(c', baseEvents) := super_updateFrom c newModel in
      match board c' with
      | Throw e =>
          {| upd_controller := c';
             upd_emitted := inherited <$> baseEvents;
             upd_completion := Throw e |}
      | Return newBoard =>
          let newTurn := turnId c' in
          let boardEvents : list (TicTacToeEvents G) :=
            if bool_decide (JSON.stringify oldBoard ≠ JSON.stringify newBoard)
            then [boardChanged newBoard] else [] in
          let turnEvents : list (TicTacToeEvents G) :=
            if bool_decide (oldTurn ≠ newTurn)
            then [turnChanged (isOurTurn c')] else [] in
          {| upd_controller := c';
             upd_emitted := (inherited <$> baseEvents) ++ boardEvents ++ turnEvents;
             upd_completion := Return tt |}
      end
  end.

(** [makeMove(row, col)]. The test [!instanceID] holds for [undefined] and
    for the empty string. The arguments of the call of
    [sendInteractableCommand], among them [this.gamePiece], are evaluated
    before the call; the promise then settles as the channel says. *)
Definition makeMove (c : Controller) (row col : TicTacToeGridPosition)
  : MoveOutcome :=
  match area_game (_model c) with
  | None =>
      {| mo_calls := [];
         mo_completion := Throw (Error NO_GAME_IN_PROGRESS_ERROR) |}
  | Some game =>
      match _instanceID c with
      | Some (String _ _ as instanceID) =>
          match gamePiece c with
          | Throw e => {| mo_calls := []; mo_completion := Throw e |}
          | Return piece =>
              let command :=
                {| cmd_gameID := game_id game;
                   cmd_move := {| mv_gamePiece := piece;
                                  mv_row := row; mv_col := col |} |} in
              {| mo_calls := [ {| call_instanceID := instanceID;
                                  call_command := command |} ];
                 mo_completion := sendInteractableCommand instanceID command |}
          end
      | _ =>
          {| mo_calls := [];
             mo_completion := Throw (Error "Instance ID is undefined") |}
      end
  end.

(** ** The board getter *)

Lemma cellAt_emptyBoard r k : cellAt emptyBoard r k = emptyGrid r k.
Proof.
  unfold cellAt, emptyBoard, emptyGrid.
  destruct r as [|[|[|r]]]; simpl; try done;
    destruct k as [|[|[|k]]]; done.
Qed.

Lemma cellAt_insert (b : Board) (rw : list TicTacToeCell) i v j r k :
  b !! i = Some rw → j < length rw →
  cellAt (<[i := <[j := v]> rw]> b) r k =
  if decide (i = r ∧ j = k) then v else cellAt b r k.
Proof.
  intros Hrw Hj. unfold cellAt.
  assert (i < length b) as Hi by (eapply lookup_lt_Some; eauto).
  destruct (decide (i = r)) as [->|Hne].
  - rewrite list_lookup_insert_eq by done. rewrite Hrw.
    destruct (decide (j = k)) as [->|Hnk].
    + rewrite list_lookup_insert_eq by done.
      rewrite decide_True; done.
    + rewrite list_lookup_insert_ne by done.
      rewrite decide_False; [done | by intros [? ?]].
  - rewrite list_lookup_insert_ne by done.
    rewrite decide_False; [done | by intros [? ?]].
Qed.

(** One in-grid write on a 3x3 board: no error, the shape is kept, and the
    cells are those of [place]. *)
Lemma write_move_in_grid (b : Board) (mv : TicTacToeMove) (g : Grid) :
  is3x3 b → in_grid mv → (∀ r k, cellAt b r k = g r k) →
  ∃ b', write_move b mv = Return b' ∧ is3x3 b'
        ∧ ∀ r k, cellAt b' r k = place g mv r k.
Proof.
  intros [Hlen Hrows] [Hr Hc] Hg. unfold write_move.
  destruct (b !! mv_row mv) as [rw|] eqn:Hrw.
  2:{ apply lookup_ge_None in Hrw. lia. }
  assert (length rw = 3) as Hrwlen.
  { rewrite Forall_lookup in Hrows. eapply Hrows; eauto. }
  unfold array_set. rewrite decide_True by lia.
  eexists; split; [reflexivity|]. split.
  - split; [by rewrite length_insert|].
    apply Forall_insert; [done|]. by rewrite length_insert.
  - intros r k. rewrite (cellAt_insert b rw); [|done|lia].
    unfold place, targets. rewrite Hg.
    repeat case_decide; first [done | tauto].
Qed.

Lemma replay_in_grid (moves : list TicTacToeMove) :
  ∀ (b : Board) (g : Grid),
    Forall in_grid moves → is3x3 b → (∀ r k, cellAt b r k = g r k) →
    ∃ b', replay b moves = Return b' ∧ is3x3 b'
          ∧ ∀ r k, cellAt b' r k = fold_left place moves g r k.
Proof.
  induction moves as [|mv rest IH]; intros b g Hall Hb Hg; simpl.
  - eauto.
  - inversion Hall as [|? ? Hmv Hrest]; subst.
    destruct (write_move_in_grid b mv g Hb Hmv Hg) as (b1 & -> & Hb1 & Hg1).
    simpl. apply IH; done.
Qed.

Lemma replay_emptyBoard (moves : list TicTacToeMove) :
  Forall in_grid moves →
  ∃ b, replay emptyBoard moves = Return b ∧ is3x3 b
       ∧ ∀ r k, cellAt b r k = deriveBoard moves r k.
Proof.
  intros Hall. apply replay_in_grid; [done| |apply cellAt_emptyBoard].
  split; [done|]. repeat constructor.
Qed.

(** A cell that no move targets keeps its content. *)
Lemma place_untouched (moves : list TicTacToeMove) r k :
  ∀ g : Grid, Forall (λ mv, ¬ targets mv r k) moves →
              fold_left place moves g r k = g r k.
Proof.
  induction moves as [|mv rest IH]; intros g Hall; simpl; [done|].
  inversion Hall as [|? ? Hmv Hrest]; subst.
  rewrite IH by done. unfold place. by rewrite decide_False.
Qed.

(** The last move that targets a cell decides its content. *)
Lemma place_last_wins (pre post : list TicTacToeMove) (mv : TicTacToeMove) :
  ∀ g : Grid, Forall (λ later, ¬ targets later (mv_row mv) (mv_col mv)) post →
              fold_left place (pre ++ mv :: post) g (mv_row mv) (mv_col mv)
              = Some (mv_gamePiece mv).
Proof.
  intros g Hpost. rewrite fold_left_app. simpl.
  rewrite place_untouched by done.
  unfold place, targets. by rewrite decide_True.
Qed.

(** C3: for moves with rows and columns in {0,1,2}, [board] returns a 3x3
    grid whose cells are those of the all-empty grid after the moves are
    replayed in order, each writing its piece at its row and column (so
    the last move on a cell decides it); a cell that no move targets is
    empty; and the result depends on the model only, so that two reads
    give the same grid. *)
Theorem board_replays_moves (c : Controller) :
  well_typed (_model c) →
  ∃ b, board c = Return b
       ∧ is3x3 b
       ∧ (∀ r k, cellAt b r k = deriveBoard (movesOf (_model c)) r k)
       ∧ (∀ (pre : list TicTacToeMove) mv post,
            movesOf (_model c) = pre ++ mv :: post →
            Forall (λ later, ¬ targets later (mv_row mv) (mv_col mv)) post →
            cellAt b (mv_row mv) (mv_col mv) = Some (mv_gamePiece mv))
       ∧ (∀ r k, Forall (λ mv, ¬ targets mv r k) (movesOf (_model c)) →
                 cellAt b r k = None)
       ∧ (∀ c2, _model c2 = _model c → board c2 = Return b).
Proof.
  intros Hwt. destruct (replay_emptyBoard _ Hwt) as (b & Hb & Hshape & Hcells).
  exists b. repeat split; try done; try apply Hshape.
  - intros pre mv post Hmoves Hpost. rewrite Hcells, Hmoves.
    by apply place_last_wins.
  - intros r k Hno. rewrite Hcells. unfold deriveBoard.
    by rewrite place_untouched.
  - intros c2 Hsame. unfold board. by rewrite Hsame.
Qed.

(** C9: for moves with rows and columns in {0,1,2}, [board] does not
    throw, whatever cells the moves target; when several moves target one
    cell, the cell holds the piece of the last of them. *)
Theorem board_total (c : Controller) :
  well_typed (_model c) →
  ∃ b, board c = Return b
       ∧ ∀ (pre mid post : list TicTacToeMove) mv mv',
           movesOf (_model c) = pre ++ mv :: mid ++ mv' :: post →
           targets mv' (mv_row mv) (mv_col mv) →
           Forall (λ later, ¬ targets later (mv_row mv) (mv_col mv)) post →
           cellAt b (mv_row mv) (mv_col mv) = Some (mv_gamePiece mv').
Proof.
  intros Hwt. destruct (replay_emptyBoard _ Hwt) as (b & Hb & Hshape & Hcells).
  exists b. split; [done|].
  intros pre mid post mv mv' Hmoves [Hr Hk] Hpost.
  rewrite Hcells, Hmoves. unfold deriveBoard.
  replace (pre ++ mv :: mid ++ mv' :: post)
    with ((pre ++ mv :: mid) ++ mv' :: post) by by rewrite <- app_assoc.
  rewrite <- Hr, <- Hk in *. by apply place_last_wins.
Qed.

(** ** [JSON.stringify] tells boards apart *)

Lemma append_nil (s : string) : EmptyString +:+ s = s.
Proof. reflexivity. Qed.

Lemma append_cons ch (s1 s2 : string) :
  String ch s1 +:+ s2 = String ch (s1 +:+ s2).
Proof. reflexivity. Qed.

Lemma append_assoc (s1 s2 s3 : string) :
  (s1 +:+ s2) +:+ s3 = s1 +:+ (s2 +:+ s3).
Proof.
  induction s1 as [|ch s1 IH]; [done|].
  rewrite !append_cons. by f_equal.
Qed.

(** Brings the first characters of both sides of an equation between
    texts to the front. *)
Ltac expose_heads H :=
  rewrite ?append_assoc in H; rewrite ?append_cons, ?append_nil in H.

Lemma stringify_cell_self_delimiting : JSON.self_delimiting JSON.stringify_cell.
Proof.
  intros [[|]|] [[|]|] s t Heq; simpl in Heq; expose_heads Heq;
    try discriminate; by simplify_eq.
Qed.

Lemma stringify_cell_starts_value : JSON.starts_value JSON.stringify_cell.
Proof. intros [[|]|]; simpl; eexists _, _; split; try reflexivity; done. Qed.

Section Arrays.
Context {A : Type} (print : A -> string).
Hypothesis print_delimited : JSON.self_delimiting print.
Hypothesis print_starts : JSON.starts_value print.

Lemma more_elements_inj (l1 : list A) :
  ∀ (l2 : list A) s t,
    JSON.more_elements (map print l1) +:+ "]" +:+ s
    = JSON.more_elements (map print l2) +:+ "]" +:+ t →
    l1 = l2 ∧ s = t.
Proof.
  induction l1 as [|a l1 IH]; intros [|b l2] s t Heq; simpl in Heq;
    expose_heads Heq; try discriminate.
  - by simplify_eq.
  - injection Heq as Heq.
    apply print_delimited in Heq as [-> Heq].
    apply IH in Heq as [-> ->]. done.
Qed.

Lemma elements_inj (l1 l2 : list A) s t :
  JSON.elements (map print l1) +:+ "]" +:+ s
  = JSON.elements (map print l2) +:+ "]" +:+ t →
  l1 = l2 ∧ s = t.
Proof.
  destruct l1 as [|a l1], l2 as [|b l2]; simpl; intros Heq.
  - expose_heads Heq. by simplify_eq.
  - destruct (print_starts b) as (ch & rest & Hb & Hch).
    rewrite Hb in Heq. expose_heads Heq. by simplify_eq.
  - destruct (print_starts a) as (ch & rest & Ha & Hch).
    rewrite Ha in Heq. expose_heads Heq. by simplify_eq.
  - rewrite !append_assoc in Heq.
    apply print_delimited in Heq as [-> Heq].
    apply more_elements_inj in Heq as [-> ->]. done.
Qed.

Lemma stringify_array_self_delimiting :
  JSON.self_delimiting (λ l, JSON.stringify_array (map print l)).
Proof.
  intros l1 l2 s t Heq. unfold JSON.stringify_array in Heq.
  rewrite !append_assoc, !append_cons, !append_nil in Heq.
  injection Heq as Heq. by apply elements_inj.
Qed.

Lemma stringify_array_starts_value :
  JSON.starts_value (λ l, JSON.stringify_array (map print l)).
Proof. intros l. eexists _, _. split; [reflexivity | done]. Qed.
End Arrays.

Lemma stringify_inj (b1 b2 : Board) :
  JSON.stringify b1 = JSON.stringify b2 → b1 = b2.
Proof.
  intros Heq.
  assert (JSON.self_delimiting JSON.stringify) as Hsd.
  { apply (stringify_array_self_delimiting JSON.stringify_row).
    - apply (stringify_array_self_delimiting JSON.stringify_cell).
      + apply stringify_cell_self_delimiting.
      + apply stringify_cell_starts_value.
    - apply (stringify_array_starts_value JSON.stringify_cell). }
  destruct (Hsd b1 b2 EmptyString EmptyString) as [Hb _]; [|done].
  by rewrite Heq.
Qed.

Example stringify_emptyBoard :
  JSON.stringify emptyBoard
  = "[[null,null,null],[null,null,null],[null,null,null]]".
Proof. reflexivity. Qed.

(** ** Boards of three rows of three cells *)

Lemma row3_inv (rw : list TicTacToeCell) :
  length rw = 3 → ∃ a b d, rw = [a; b; d].
Proof. destruct rw as [|a [|b [|d [|? ?]]]]; simpl; intros; try lia; eauto. Qed.

Lemma is3x3_inv (b : Board) :
  is3x3 b →
  ∃ a0 a1 a2 b0 b1 b2 d0 d1 d2,
    b = [ [a0; a1; a2]; [b0; b1; b2]; [d0; d1; d2] ].
Proof.
  intros [Hlen Hrows].
  destruct b as [|r0 [|r1 [|r2 [|? ?]]]]; simpl in Hlen; try lia.
  inversion Hrows as [|? ? H0 Hrows1]; subst.
  inversion Hrows1 as [|? ? H1 Hrows2]; subst.
  inversion Hrows2 as [|? ? H2 _]; subst.
  apply row3_inv in H0 as (? & ? & ? & ->).
  apply row3_inv in H1 as (? & ? & ? & ->).
  apply row3_inv in H2 as (? & ? & ? & ->).
  by eexists _, _, _, _, _, _, _, _, _.
Qed.

(** Two 3x3 boards are different lists exactly when they differ in a
    cell. *)
Lemma differ_iff_neq (b1 b2 : Board) :
  is3x3 b1 → is3x3 b2 → (differ b1 b2 ↔ b1 ≠ b2).
Proof.
  intros H1 H2. split.
  - intros (r & k & _ & _ & Hne) ->. done.
  - intros Hne.
    apply is3x3_inv in H1 as (a0 & a1 & a2 & a3 & a4 & a5 & a6 & a7 & a8 & ->).
    apply is3x3_inv in H2 as (e0 & e1 & e2 & e3 & e4 & e5 & e6 & e7 & e8 & ->).
    destruct (decide (a0 = e0)) as [->|]; [|exists 0, 0; split_and!; [lia..|done]].
    destruct (decide (a1 = e1)) as [->|]; [|exists 0, 1; split_and!; [lia..|done]].
    destruct (decide (a2 = e2)) as [->|]; [|exists 0, 2; split_and!; [lia..|done]].
    destruct (decide (a3 = e3)) as [->|]; [|exists 1, 0; split_and!; [lia..|done]].
    destruct (decide (a4 = e4)) as [->|]; [|exists 1, 1; split_and!; [lia..|done]].
    destruct (decide (a5 = e5)) as [->|]; [|exists 1, 2; split_and!; [lia..|done]].
    destruct (decide (a6 = e6)) as [->|]; [|exists 2, 0; split_and!; [lia..|done]].
    destruct (decide (a7 = e7)) as [->|]; [|exists 2, 1; split_and!; [lia..|done]].
    destruct (decide (a8 = e8)) as [->|]; [|exists 2, 2; split_and!; [lia..|done]].
    done.
Qed.

Lemma boardOf_well_typed (m : GameArea) :
  well_typed m → ∃ b, boardOf m = Return b ∧ is3x3 b.
Proof.
  intros Hwt. destruct (replay_emptyBoard _ Hwt) as (b & Hb & Hshape & _).
  eauto.
Qed.

(** ** The update protocol *)

Lemma boardChangedEvents_app (l1 l2 : list (TicTacToeEvents G)) :
  boardChangedEvents (l1 ++ l2) = boardChangedEvents l1 ++ boardChangedEvents l2.
Proof.
  induction l1 as [|[b|t|e] l1 IH]; simpl; [done| |done..]. by rewrite IH.
Qed.

Lemma turnChangedEvents_app (l1 l2 : list (TicTacToeEvents G)) :
  turnChangedEvents (l1 ++ l2) = turnChangedEvents l1 ++ turnChangedEvents l2.
Proof.
  induction l1 as [|[b|t|e] l1 IH]; simpl; [done|done| |done]. by rewrite IH.
Qed.

Lemma boardChangedEvents_inherited (l : list G) :
  boardChangedEvents (inherited <$> l) = [].
Proof. induction l; simpl; done. Qed.

Lemma turnChangedEvents_inherited (l : list G) :
  turnChangedEvents (inherited <$> l) = [].
Proof. induction l; simpl; done. Qed.

Lemma turnChangedEvents_boardChanged_nil (b : bool) (t : bool) :
  boardChangedEvents
    (if b then [turnChanged (GameEventTypes := G) t] else []) = [].
Proof. by destruct b. Qed.

(** What [_updateFrom] does when both boards can be derived. *)
Lemma updateFrom_unfold (c : Controller) (newModel : GameArea)
    (oldBoard newBoard : Board) :
  board c = Return oldBoard → boardOf newModel = Return newBoard →
  let c' := (super_updateFrom c newModel).1 in
  _updateFrom c newModel =
  {| upd_controller := c';
     upd_emitted :=
       (inherited <$> (super_updateFrom c newModel).2)
       ++ (if bool_decide (JSON.stringify oldBoard ≠ JSON.stringify newBoard)
           then [boardChanged newBoard] else [])
       ++ (if bool_decide (turnId c ≠ turnId c')
           then [turnChanged (isOurTurn c')] else []);
     upd_completion := Return tt |}.
Proof.
  intros Hold Hnew. unfold _updateFrom. rewrite Hold.
  pose proof (super_installs_model c newModel) as Hmodel.
  destruct (super_updateFrom c newModel) as [c1 baseEvents]; simpl in *.
  unfold board. rewrite Hmodel, Hnew. done.
Qed.

(** C1: an update between two well-typed models completes, and it emits
    one [boardChanged] event, carrying the board derived from the new
    model, when the boards derived from the old and the new model differ
    in at least one cell, and no [boardChanged] event when they agree in
    every cell; in particular none when the game of the new model is the
    game of the old one, as in an update of the occupants only. *)
Theorem updateFrom_boardChanged (c : Controller) (newModel : GameArea) :
  well_typed (_model c) → well_typed newModel →
  ∃ oldBoard newBoard,
    board c = Return oldBoard
    ∧ boardOf newModel = Return newBoard
    ∧ board (upd_controller (_updateFrom c newModel)) = Return newBoard
    ∧ upd_completion (_updateFrom c newModel) = Return tt
    ∧ (differ oldBoard newBoard →
       boardChangedEvents (upd_emitted (_updateFrom c newModel)) = [newBoard])
    ∧ (¬ differ oldBoard newBoard →
       boardChangedEvents (upd_emitted (_updateFrom c newModel)) = [])
    ∧ (area_game newModel = area_game (_model c) →
       boardChangedEvents (upd_emitted (_updateFrom c newModel)) = []).
Proof.
  intros Hwt Hwt'.
  destruct (boardOf_well_typed _ Hwt) as (oldBoard & Hold & Hshape).
  destruct (boardOf_well_typed _ Hwt') as (newBoard & Hnew & Hshape').
  exists oldBoard, newBoard.
  rewrite (updateFrom_unfold c newModel oldBoard newBoard Hold Hnew). simpl.
  rewrite !boardChangedEvents_app, boardChangedEvents_inherited. simpl.
  pose proof (differ_iff_neq _ _ Hshape Hshape') as Hdiff.
  split_and!; try done.
  - unfold board. by rewrite super_installs_model.
  - intros Hd. apply Hdiff in Hd.
    rewrite bool_decide_true.
    + simpl. by rewrite turnChangedEvents_boardChanged_nil.
    + intros Heq. by apply stringify_inj in Heq.
  - intros Hd. assert (oldBoard = newBoard) as ->.
    { destruct (decide (oldBoard = newBoard)); [done|]. by apply Hdiff in n. }
    rewrite bool_decide_false by (intros Hne; by apply Hne).
    simpl. apply turnChangedEvents_boardChanged_nil.
  - intros Hgame. assert (oldBoard = newBoard) as ->.
    { unfold board, boardOf, movesOf in *. rewrite Hgame in Hnew.
      rewrite Hold in Hnew. by simplify_eq. }
    rewrite bool_decide_false by (intros Hne; by apply Hne).
    simpl. apply turnChangedEvents_boardChanged_nil.
Qed.

(** C2: an update between two well-typed models emits one [turnChanged]
    event, carrying [isOurTurn] of the state after the update, when the
    identifier of the turn owner before the update differs from the one
    after it (an absent owner differs from any owner), and no
    [turnChanged] event when the two are the same; the log is the events
    of the base class, then at most one [boardChanged], decided by the
    boards alone, then at most one [turnChanged], decided by the owners
    alone. *)
Theorem updateFrom_turnChanged (c : Controller) (newModel : GameArea) :
  well_typed (_model c) → well_typed newModel →
  let out := _updateFrom c newModel in
  let c' := upd_controller out in
  ∃ oldBoard newBoard,
    board c = Return oldBoard ∧ board c' = Return newBoard
    ∧ c' = (super_updateFrom c newModel).1
    ∧ upd_completion out = Return tt
    ∧ upd_emitted out =
        (inherited <$> (super_updateFrom c newModel).2)
        ++ (if decide (oldBoard = newBoard) then [] else [boardChanged newBoard])
        ++ (if decide (turnId c = turnId c') then []
            else [turnChanged (isOurTurn c')])
    ∧ (turnId c ≠ turnId c' →
       turnChangedEvents (upd_emitted out) = [isOurTurn c'])
    ∧ (turnId c = turnId c' → turnChangedEvents (upd_emitted out) = [])
    ∧ length (boardChangedEvents (upd_emitted out)) ≤ 1
    ∧ length (turnChangedEvents (upd_emitted out)) ≤ 1.
Proof.
  intros Hwt Hwt' out c'.
  destruct (boardOf_well_typed _ Hwt) as (oldBoard & Hold & Hshape).
  destruct (boardOf_well_typed _ Hwt') as (newBoard & Hnew & Hshape').
  exists oldBoard, newBoard. subst out c'.
  rewrite (updateFrom_unfold c newModel oldBoard newBoard Hold Hnew). simpl.
  set (c' := (super_updateFrom c newModel).1).
  assert ((if bool_decide (JSON.stringify oldBoard ≠ JSON.stringify newBoard)
           then [boardChanged (GameEventTypes := G) newBoard] else [])
          = if decide (oldBoard = newBoard) then [] else [boardChanged newBoard])
    as ->.
  { destruct (decide (oldBoard = newBoard)) as [->|Hne].
    - rewrite bool_decide_false; [done | by intros Hne; apply Hne].
    - rewrite bool_decide_true; [done | by intros Heq%stringify_inj]. }
  assert ((if bool_decide (turnId c ≠ turnId c')
           then [turnChanged (GameEventTypes := G) (isOurTurn c')] else [])
          = if decide (turnId c = turnId c') then []
            else [turnChanged (isOurTurn c')])
    as ->.
  { destruct (decide (turnId c = turnId c')) as [Heq|Hne].
    - rewrite bool_decide_false; [done | by intros Hne; apply Hne].
    - by rewrite bool_decide_true. }
  rewrite !turnChangedEvents_app, !boardChangedEvents_app,
    turnChangedEvents_inherited, boardChangedEvents_inherited.
  split_and!; try done.
  - unfold board, c'. by rewrite super_installs_model.
  - intros Hne. by repeat case_decide.
  - intros Heq. by repeat case_decide.
  - destruct (decide (oldBoard = newBoard)), (decide (turnId c = turnId c'));
      simpl; lia.
  - destruct (decide (oldBoard = newBoard)), (decide (turnId c = turnId c'));
      simpl; lia.
Qed.

(** ** The turn owner *)

Lemma whoseTurn_loop_even (count : nat) (gs : TicTacToeGameState)
    (players : list PlayerController) :
  count mod 2 = 0 →
  whoseTurn_loop count gs players =
  if truthy (gs_x gs)
  then find (λ player, bool_decide (gs_x gs = Some (pc_id player))) players
  else None.
Proof.
  intros Heven. apply Nat.eqb_eq in Heven.
  induction players as [|player rest IH]; cbn [whoseTurn_loop find].
  - by destruct (truthy (gs_x gs)).
  - rewrite Heven, IH. simpl. destruct (truthy (gs_x gs)); simpl; [|done].
    rewrite (bool_decide_ext (Some (pc_id player) = gs_x gs)
                             (gs_x gs = Some (pc_id player))) by done.
    by destruct (bool_decide (gs_x gs = Some (pc_id player))).
Qed.

Lemma whoseTurn_loop_odd (count : nat) (gs : TicTacToeGameState)
    (players : list PlayerController) :
  count mod 2 ≠ 0 →
  whoseTurn_loop count gs players =
  if truthy (gs_o gs)
  then find (λ player, bool_decide (gs_o gs = Some (pc_id player))) players
  else None.
Proof.
  intros Hodd. apply Nat.eqb_neq in Hodd.
  induction players as [|player rest IH]; cbn [whoseTurn_loop find].
  - by destruct (truthy (gs_o gs)).
  - rewrite Hodd, IH. simpl. destruct (truthy (gs_o gs)); simpl; [|done].
    rewrite (bool_decide_ext (Some (pc_id player) = gs_o gs)
                             (gs_o gs = Some (pc_id player))) by done.
    by destruct (bool_decide (gs_o gs = Some (pc_id player))).
Qed.


(** C7: [isOurTurn] is true exactly when the status is IN_PROGRESS and
    [whoseTurn] is the local player; it is false whenever the status is
    not IN_PROGRESS. *)
Theorem isOurTurn_iff (c : Controller) :
  (isOurTurn c = true ↔
   status c = IN_PROGRESS ∧ whoseTurn c = Some (ourPlayer (_townController c)))
  ∧ (status c ≠ IN_PROGRESS → isOurTurn c = false).
Proof.
  unfold isOurTurn, status.
  destruct (gameState c) as [gs|] eqn:Hgs.
  - destruct (decide (gs_status gs = IN_PROGRESS)) as [Hin|Hout].
    + rewrite bool_decide_false by (intros Hne; by apply Hne).
      rewrite bool_decide_eq_true. intuition congruence.
    + rewrite bool_decide_true by done. intuition congruence.
  - intuition congruence.
Qed.

(** ** The game piece of the local player *)

(** C6: [gamePiece] throws the error PLAYER_NOT_IN_GAME exactly when the
    identifier of the local player is neither that of role X nor that of
    role O, which is when [isPlayer] is false. *)
Theorem gamePiece_throws_iff (c : Controller) :
  (gamePiece c = Throw (Error PLAYER_NOT_IN_GAME_ERROR) ↔
   roleX c ≠ Some (ourId c) ∧ roleO c ≠ Some (ourId c))
  ∧ (isPlayer c = false ↔
     roleX c ≠ Some (ourId c) ∧ roleO c ≠ Some (ourId c)).
Proof.
  assert (isPlayer c = false ↔
          roleX c ≠ Some (ourId c) ∧ roleO c ≠ Some (ourId c)) as Hplayer.
  { unfold isPlayer, ourId. rewrite orb_false_r, orb_false_iff.
    by rewrite !bool_decide_eq_false. }
  split; [|done]. rewrite <- Hplayer. unfold gamePiece.
  destruct (isPlayer c); simpl; split; done.
Qed.

Lemma find_pointwise {A} (f g : A → bool) (l : list A) :
  (∀ a, f a = g a) → find f l = find g l.
Proof.
  intros Hfg. induction l as [|a l IH]; simpl; [done|].
  by rewrite Hfg, IH.
Qed.

Lemma x_not_ours (c : Controller) :
  roleX c ≠ Some (ourId c) → x c ≠ Some (ourPlayer (_townController c)).
Proof.
  intros Hne Hx. unfold x in Hx. apply find_some in Hx as [_ Hx].
  apply bool_decide_eq_true in Hx. done.
Qed.

(** Where the identifiers of the roster are pairwise distinct, the roster
    resolves each of its players. *)
Lemma resolves_unique_ids (players : list PlayerController) (p : PlayerController) :
  NoDup (pc_id <$> players) → p ∈ players → resolves players p.
Proof.
  unfold resolves. induction players as [|q rest IH]; intros Hnd Hin.
  - by apply elem_of_nil in Hin.
  - simpl in *. apply NoDup_cons in Hnd as [Hq Hnd].
    apply elem_of_cons in Hin as [->|Hin].
    + by rewrite bool_decide_true.
    + rewrite bool_decide_false; [by apply IH|].
      intros [= Heq]. apply Hq. rewrite <- Heq.
      by apply list_elem_of_fmap_2.
Qed.

(** Where the roster is in step with the roles: for a local player who is
    a player of the game, [gamePiece] is X when the identifier of role X is
    the local player's and the roster resolves it to the local player's
    controller, and O when the identifier of role O is the local player's
    and that of role X is not. *)
Theorem gamePiece_of_player (c : Controller) :
  isPlayer c = true →
  (roleX c = Some (ourId c) →
   resolves (_players c) (ourPlayer (_townController c)) →
   gamePiece c = Return X)
  ∧ (roleO c = Some (ourId c) → roleX c ≠ Some (ourId c) →
     gamePiece c = Return O).
Proof.
  intros Hplayer. unfold gamePiece. rewrite Hplayer. simpl. split.
  - intros Hx Hres. rewrite bool_decide_true; [done|].
    unfold x, resolves, ourId in *. rewrite <- Hres. rewrite Hx.
    apply find_pointwise. intros q. by apply bool_decide_ext.
  - intros _ Hx. by rewrite bool_decide_false by by apply not_eq_sym, x_not_ours.
Qed.

(** ** Sending a move *)

(** C8: without a game, [makeMove] fails with the error
    NO_GAME_IN_PROGRESS and the command channel is not called; with a game
    but no instance identifier ([undefined], or the empty string, which the
    code does not tell apart), it fails with another error, and the command
    channel is not called either. *)
Theorem makeMove_precondition_errors (c : Controller)
    (row col : TicTacToeGridPosition) :
  (area_game (_model c) = None →
   makeMove c row col =
   {| mo_calls := [];
      mo_completion := Throw (Error NO_GAME_IN_PROGRESS_ERROR) |})
  ∧ (is_Some (area_game (_model c)) → truthy (_instanceID c) = false →
     mo_calls (makeMove c row col) = []
     ∧ ∃ message,
         mo_completion (makeMove c row col) = Throw (Error message)
         ∧ message ≠ NO_GAME_IN_PROGRESS_ERROR
         ∧ message ≠ PLAYER_NOT_IN_GAME_ERROR).
Proof.
  unfold makeMove. split.
  - by intros ->.
  - intros [game ->] Hid.
    destruct (_instanceID c) as [[|ch rest]|]; simpl in Hid; try discriminate.
    all: split; [done|]; eexists; split; [reflexivity|]; split; discriminate.
Qed.

(** C10: with a game and an instance identifier (a non-empty string)
    attached, and a local player who is not a player of the game,
    [makeMove] fails with the error PLAYER_NOT_IN_GAME, raised by the read
    of [gamePiece], and the command channel is not called. *)
Theorem makeMove_not_player (c : Controller)
    (row col : TicTacToeGridPosition) :
  is_Some (area_game (_model c)) →
  truthy (_instanceID c) = true →
  isPlayer c = false →
  gamePiece c = Throw (Error PLAYER_NOT_IN_GAME_ERROR)
  ∧ makeMove c row col =
    {| mo_calls := [];
       mo_completion := Throw (Error PLAYER_NOT_IN_GAME_ERROR) |}.
Proof.
  intros [game Hgame] Hid Hplayer.
  assert (gamePiece c = Throw (Error PLAYER_NOT_IN_GAME_ERROR)) as Hpiece.
  { unfold gamePiece. by rewrite Hplayer. }
  split; [done|]. unfold makeMove. rewrite Hgame, Hpiece.
  destruct (_instanceID c) as [[|ch rest]|]; simpl in Hid; done.
Qed.

(** The remaining path: a player of the game sends one command, and the
    promise settles as the channel says. *)
Lemma makeMove_sends (c : Controller) (row col : TicTacToeGridPosition)
    (game : GameInstance) (piece : GamePiece) :
  area_game (_model c) = Some game →
  truthy (_instanceID c) = true →
  gamePiece c = Return piece →
  ∃ instanceID,
    _instanceID c = Some instanceID
    ∧ let command :=
        {| cmd_gameID := game_id game;
           cmd_move := {| mv_gamePiece := piece; mv_row := row; mv_col := col |} |} in
      makeMove c row col =
      {| mo_calls := [ {| call_instanceID := instanceID; call_command := command |} ];
         mo_completion := sendInteractableCommand instanceID command |}.
Proof.
  intros Hgame Hid Hpiece. unfold makeMove. rewrite Hgame, Hpiece.
  destruct (_instanceID c) as [[|ch rest]|]; simpl in Hid; try discriminate.
  by eexists.
Qed.

(** ** The board getter on any moves *)

Lemma cellAt_row (b : Board) (rw : list TicTacToeCell) r k :
  b !! r = Some rw → cellAt b r k = default None (rw !! k).
Proof. intros Hrw. unfold cellAt. rewrite Hrw. by destruct (rw !! k). Qed.

(** Reading back after [arr[i] = v], holes reading as [undefined]. *)
Lemma array_set_lookup {A} (arr : list (option A)) (i : nat) (v : option A) j :
  default None (array_set arr i v !! j)
  = if decide (j = i) then v else default None (arr !! j).
Proof.
  unfold array_set. destruct (decide (i < length arr)) as [Hin|Hout].
  - destruct (decide (j = i)) as [->|Hne].
    + by rewrite list_lookup_insert_eq.
    + by rewrite list_lookup_insert_ne.
  - destruct (decide (j < length arr)) as [Hj|Hj].
    + rewrite lookup_app_l by done. rewrite decide_False by lia. done.
    + rewrite lookup_app_r by lia.
      rewrite (lookup_ge_None_2 arr j) by lia. simpl.
      destruct (decide (j < i)) as [Hlt|Hge].
      * rewrite lookup_app_l by (rewrite length_replicate; lia).
        rewrite lookup_replicate_2 by lia. rewrite decide_False by lia. done.
      * rewrite lookup_app_r by (rewrite length_replicate; lia).
        rewrite length_replicate.
        destruct (decide (j = i)) as [->|Hne].
        -- by replace (i - length arr - (i - length arr)) with 0 by lia.
        -- destruct (j - length arr - (i - length arr)) as [|n] eqn:Hn; [lia|done].
Qed.

Lemma array_set_length {A} (arr : list (option A)) (i : nat) (v : option A) :
  length arr ≤ length (array_set arr i v).
Proof.
  unfold array_set. case_decide.
  - by rewrite length_insert.
  - rewrite length_app. lia.
Qed.

(** One write on a board of three rows, at a row of the grid and at any
    column. *)
Lemma write_move_any_column (b : Board) (mv : TicTacToeMove) (g : Grid) :
  length b = 3 → Forall (λ rw, 3 ≤ length rw) b → mv_row mv < 3 →
  (∀ r k, cellAt b r k = g r k) →
  ∃ b', write_move b mv = Return b' ∧ length b' = 3
        ∧ Forall (λ rw, 3 ≤ length rw) b'
        ∧ ∀ r k, cellAt b' r k = place g mv r k.
Proof.
  intros Hlen Hrows Hr Hg. unfold write_move.
  destruct (b !! mv_row mv) as [rw|] eqn:Hrw.
  2:{ apply lookup_ge_None in Hrw. lia. }
  eexists. split; [reflexivity|]. split; [by rewrite length_insert|]. split.
  - apply Forall_insert; [done|].
    rewrite Forall_lookup in Hrows. specialize (Hrows _ _ Hrw). simpl in Hrows.
    pose proof (array_set_length rw (mv_col mv) (Some (mv_gamePiece mv))). lia.
  - intros r k. unfold place, targets.
    destruct (decide (mv_row mv = r)) as [<-|Hne].
    + erewrite cellAt_row by (apply list_lookup_insert_eq; lia).
      rewrite array_set_lookup. rewrite <- Hg, (cellAt_row b rw) by done.
      repeat case_decide; first [done | exfalso; intuition congruence].
    + rewrite decide_False by tauto. rewrite <- Hg. unfold cellAt.
      by rewrite list_lookup_insert_ne.
Qed.

Lemma replay_any_column (moves : list TicTacToeMove) :
  ∀ (b : Board) (g : Grid),
    Forall (λ mv, mv_row mv < 3) moves →
    length b = 3 → Forall (λ rw, 3 ≤ length rw) b →
    (∀ r k, cellAt b r k = g r k) →
    ∃ b', replay b moves = Return b' ∧ length b' = 3
          ∧ Forall (λ rw, 3 ≤ length rw) b'
          ∧ ∀ r k, cellAt b' r k = fold_left place moves g r k.
Proof.
  induction moves as [|mv rest IH]; intros b g Hall Hlen Hrows Hg; simpl.
  - eauto.
  - inversion Hall as [|? ? Hmv Hrest]; subst.
    destruct (write_move_any_column b mv g Hlen Hrows Hmv Hg)
      as (b1 & -> & Hlen1 & Hrows1 & Hg1).
    simpl. by apply IH.
Qed.

(** A move on a row off the grid makes the replay throw, whatever the other
    moves are. *)
Lemma replay_row_off_grid (moves : list TicTacToeMove) :
  ∀ b : Board,
    length b = 3 → Forall (λ rw, 3 ≤ length rw) b →
    Exists (λ mv, 3 ≤ mv_row mv) moves →
    replay b moves = Throw (TypeError "Cannot set properties of undefined").
Proof.
  induction moves as [|mv rest IH]; intros b Hlen Hrows Hex; simpl.
  - by apply Exists_nil in Hex.
  - destruct (decide (mv_row mv < 3)) as [Hin|Hout].
    + destruct (write_move_any_column b mv (cellAt b) Hlen Hrows Hin)
        as (b1 & -> & Hlen1 & Hrows1 & _); [done|].
      simpl. apply IH; [done..|].
      apply Exists_cons in Hex as [Hmv|Hrest]; [lia | done].
    + unfold write_move. rewrite (lookup_ge_None_2 b) by lia. done.
Qed.

Lemma emptyBoard_rows : Forall (λ rw : list TicTacToeCell, 3 ≤ length rw) emptyBoard.
Proof. repeat constructor. Qed.

Lemma rows_in_or_off_grid (moves : list TicTacToeMove) :
  Forall (λ mv, mv_row mv < 3) moves ∨ Exists (λ mv, 3 ≤ mv_row mv) moves.
Proof.
  induction moves as [|mv rest [IH|IH]].
  - by left.
  - destruct (decide (mv_row mv < 3)).
    + left. by constructor.
    + right. apply Exists_cons_hd. lia.
  - right. by apply Exists_cons_tl.
Qed.

(** X1: a move on a row of 3 or more makes the [board] getter throw a
    TypeError, whatever the other moves, before it or after it, and
    whatever the columns; and the getter throws nothing but a TypeError. *)
Theorem board_throws_off_grid (c : Controller) :
  (Exists (λ mv, 3 ≤ mv_row mv) (movesOf (_model c)) →
   ∃ message, board c = Throw (TypeError message))
  ∧ (∀ e, board c = Throw e → ∃ message, e = TypeError message).
Proof.
  unfold board, boardOf. split.
  - intros Hoff. eexists.
    apply (replay_row_off_grid _ emptyBoard eq_refl emptyBoard_rows Hoff).
  - intros e Hthrow.
    destruct (rows_in_or_off_grid (movesOf (_model c))) as [Hin|Hoff].
    + destruct (replay_any_column _ emptyBoard emptyGrid Hin eq_refl
                  emptyBoard_rows cellAt_emptyBoard) as (b & Hb & _).
      rewrite Hb in Hthrow. discriminate.
    + rewrite (replay_row_off_grid _ emptyBoard eq_refl emptyBoard_rows Hoff)
        in Hthrow.
      injection Hthrow as <-. by eexists.
Qed.

(** X2: with every move on a row of the grid, whatever the columns, the
    [board] getter returns three rows of at least three cells whose cells
    are those of the replay of the specification: a column off the grid
    does not throw, and the piece reads back there. *)
Theorem board_any_column (c : Controller) :
  Forall (λ mv, mv_row mv < 3) (movesOf (_model c)) →
  ∃ b, board c = Return b
       ∧ length b = 3
       ∧ Forall (λ rw, 3 ≤ length rw) b
       ∧ ∀ r k, cellAt b r k = deriveBoard (movesOf (_model c)) r k.
Proof.
  intros Hin. unfold board, boardOf.
  by apply replay_any_column;
    [| | apply emptyBoard_rows | apply cellAt_emptyBoard].
Qed.

Lemma place_from_moves (moves : list TicTacToeMove) r k (p : GamePiece) :
  ∀ g : Grid,
    fold_left place moves g r k = Some p →
    (∃ mv, mv ∈ moves ∧ targets mv r k ∧ mv_gamePiece mv = p) ∨ g r k = Some p.
Proof.
  induction moves as [|mv rest IH]; intros g Hp; simpl in Hp.
  - by right.
  - apply IH in Hp as [(mv' & Hin & Ht & Hpiece)|Hp].
    + left. exists mv'. split; [by apply list_elem_of_further | done].
    + unfold place in Hp. destruct (decide (targets mv r k)) as [Ht|_].
      * left. exists mv. split; [apply list_elem_of_here|]. split; [done|].
        congruence.
      * by right.
Qed.

(** X3: the board holds nothing but the moves: a piece that the returned
    board shows at a position is the piece of a move of the model that
    targets this position, and the position is on a row of the grid. *)
Theorem board_pieces_from_moves (c : Controller) (b : Board) r k (p : GamePiece) :
  board c = Return b → cellAt b r k = Some p →
  r < 3 ∧ ∃ mv, mv ∈ movesOf (_model c) ∧ targets mv r k ∧ mv_gamePiece mv = p.
Proof.
  unfold board, boardOf. intros Hb Hp.
  destruct (rows_in_or_off_grid (movesOf (_model c))) as [Hin|Hoff].
  - destruct (replay_any_column _ emptyBoard emptyGrid Hin eq_refl
                emptyBoard_rows cellAt_emptyBoard)
      as (b' & Hb' & Hlen & _ & Hcells).
    rewrite Hb in Hb'. injection Hb' as <-. split.
    + unfold cellAt in Hp. destruct (b !! r) as [rw|] eqn:Hrw; [|done].
      apply lookup_lt_Some in Hrw. lia.
    + rewrite Hcells in Hp.
      by apply place_from_moves in Hp as [Hmv|Hp].
  - rewrite (replay_row_off_grid _ emptyBoard eq_refl emptyBoard_rows Hoff) in Hb.
    discriminate.
Qed.

(** ** Looking players up in the roster *)

(** [players.find(player => id === player.id)], for an identifier that may
    be [undefined]. *)
Lemma find_by_id (role : option PlayerID) (players : list PlayerController) :
  let found := find (λ player, bool_decide (role = Some (pc_id player))) players in
  (∀ p, found = Some p → p ∈ players ∧ role = Some (pc_id p))
  ∧ (found = None ↔ ∀ p, p ∈ players → role ≠ Some (pc_id p))
  ∧ (NoDup (pc_id <$> players) →
     ∀ p, p ∈ players → role = Some (pc_id p) → found = Some p).
Proof.
  simpl. split_and!.
  - intros p Hp. apply find_some in Hp as [Hin Hid].
    split; [by apply list_elem_of_In | by apply bool_decide_eq_true in Hid].
  - split.
    + intros Hnone p Hin. apply list_elem_of_In in Hin.
      apply (find_none _ _ Hnone) in Hin. by apply bool_decide_eq_false in Hin.
    + intros Hall. induction players as [|q rest IH]; simpl; [done|].
      rewrite bool_decide_false by (apply Hall, list_elem_of_here).
      apply IH. intros p Hin. by apply Hall, list_elem_of_further.
  - intros Hnd p Hin ->. pose proof (resolves_unique_ids players p Hnd Hin) as Hres.
    unfold resolves in Hres. rewrite <- Hres.
    apply find_pointwise. intros q. done.
Qed.

(** X4: the getters [x], [o] and [winner] look an identifier up in the
    roster: the player they return is in the roster and has the identifier
    of the role (or of the winner); they return [undefined] exactly when no
    player of the roster has it; and where the identifiers of the roster are
    pairwise distinct, they return each player of the roster that has it. *)
Theorem role_getters_lookup (c : Controller) :
  (∀ p, x c = Some p → p ∈ _players c ∧ roleX c = Some (pc_id p))
  ∧ (∀ p, o c = Some p → p ∈ _players c ∧ roleO c = Some (pc_id p))
  ∧ (∀ p, winner c = Some p →
          p ∈ _players c ∧ gameState c ≫= gs_winner = Some (pc_id p))
  ∧ (x c = None ↔ ∀ p, p ∈ _players c → roleX c ≠ Some (pc_id p))
  ∧ (o c = None ↔ ∀ p, p ∈ _players c → roleO c ≠ Some (pc_id p))
  ∧ (winner c = None ↔
     ∀ p, p ∈ _players c → gameState c ≫= gs_winner ≠ Some (pc_id p))
  ∧ (NoDup (pc_id <$> _players c) →
     ∀ p, p ∈ _players c →
          (roleX c = Some (pc_id p) → x c = Some p)
          ∧ (roleO c = Some (pc_id p) → o c = Some p)
          ∧ (gameState c ≫= gs_winner = Some (pc_id p) → winner c = Some p)).
Proof.
  destruct (find_by_id (roleX c) (_players c)) as (Hx1 & Hx2 & Hx3).
  destruct (find_by_id (roleO c) (_players c)) as (Ho1 & Ho2 & Ho3).
  destruct (find_by_id (gameState c ≫= gs_winner) (_players c))
    as (Hw1 & Hw2 & Hw3).
  split_and!; try done.
  intros Hnd p Hin. split_and!; intros Hid.
  - by apply Hx3. - by apply Ho3. - by apply Hw3.
Qed.

Lemma whoseTurn_sound_aux (c : Controller) (p : PlayerController) :
  whoseTurn c = Some p →
  (moveCount c mod 2 = 0 ∧ x c = Some p ∧ roleX c = Some (pc_id p))
  ∨ (moveCount c mod 2 ≠ 0 ∧ o c = Some p ∧ roleO c = Some (pc_id p)).
Proof.
  unfold whoseTurn, x, o, roleX, roleO. intros Hturn.
  destruct (gameState c) as [gs|] eqn:Hgs; [|done]. simpl.
  destruct (bool_decide (gs_status gs = IN_PROGRESS)); [|done].
  destruct (decide (moveCount c mod 2 = 0)) as [Heven|Hodd].
  - rewrite whoseTurn_loop_even in Hturn by done.
    destruct (truthy (gs_x gs)); [|done].
    destruct (find_by_id (gs_x gs) (_players c)) as (Hfound & _).
    left. by destruct (Hfound _ Hturn).
  - rewrite whoseTurn_loop_odd in Hturn by done.
    destruct (truthy (gs_o gs)); [|done].
    destruct (find_by_id (gs_o gs) (_players c)) as (Hfound & _).
    right. by destruct (Hfound _ Hturn).
Qed.

(** X5: when [whoseTurn] returns a player, the game is in progress, the
    player is in the roster and its identifier is not empty; on an even
    number of moves it is the player that [x] returns and it holds role X,
    on an odd number the player that [o] returns and it holds role O. *)
Theorem whoseTurn_sound (c : Controller) (p : PlayerController) :
  whoseTurn c = Some p →
  status c = IN_PROGRESS
  ∧ p ∈ _players c
  ∧ pc_id p ≠ EmptyString
  ∧ ((moveCount c mod 2 = 0 ∧ x c = Some p ∧ roleX c = Some (pc_id p))
     ∨ (moveCount c mod 2 ≠ 0 ∧ o c = Some p ∧ roleO c = Some (pc_id p))).
Proof.
  unfold whoseTurn, status, x, o, roleX, roleO. intros Hturn.
  destruct (gameState c) as [gs|] eqn:Hgs; [|done]. simpl.
  destruct (decide (gs_status gs = IN_PROGRESS)) as [Hst|Hst].
  2:{ by rewrite bool_decide_false in Hturn. }
  rewrite bool_decide_true in Hturn by done. split; [done|].
  destruct (decide (moveCount c mod 2 = 0)) as [Heven|Hodd].
  - rewrite whoseTurn_loop_even in Hturn by done.
    destruct (truthy (gs_x gs)) eqn:Htruthy; [|done].
    destruct (find_by_id (gs_x gs) (_players c)) as (Hfound & _).
    destruct (Hfound _ Hturn) as [Hin Hid]. split; [done|]. split.
    + intros Hempty. rewrite Hid, Hempty in Htruthy. done.
    + left. done.
  - rewrite whoseTurn_loop_odd in Hturn by done.
    destruct (truthy (gs_o gs)) eqn:Htruthy; [|done].
    destruct (find_by_id (gs_o gs) (_players c)) as (Hfound & _).
    destruct (Hfound _ Hturn) as [Hin Hid]. split; [done|]. split.
    + intros Hempty. rewrite Hid, Hempty in Htruthy. done.
    + right. done.
Qed.

(** X6: when it is our turn, the game is active, the local player is a
    player of the game and [gamePiece] returns: X on an even number of
    moves; on an odd number O, unless role X names the local player as
    well, in which case X. *)
Theorem isOurTurn_gamePiece (c : Controller) :
  isOurTurn c = true →
  isActive c = true
  ∧ isPlayer c = true
  ∧ (moveCount c mod 2 = 0 → gamePiece c = Return X)
  ∧ (moveCount c mod 2 ≠ 0 →
     gamePiece c = Return (if decide (roleX c = Some (ourId c)) then X else O)).
Proof.
  intros Hours.
  assert (status c = IN_PROGRESS
          ∧ whoseTurn c = Some (ourPlayer (_townController c))) as [Hst Hturn].
  { unfold isOurTurn, status in *. destruct (gameState c) as [gs|]; [|done].
    destruct (decide (gs_status gs = IN_PROGRESS)) as [Hin|Hout].
    - rewrite bool_decide_false in Hours by (intros Hne; by apply Hne).
      by apply bool_decide_eq_true in Hours.
    - by rewrite bool_decide_true in Hours. }
  destruct (whoseTurn_sound_aux c _ Hturn) as [(Heven & Hx & Hid)|(Hodd & Ho & Hid)].
  - assert (isPlayer c = true) as Hplayer.
    { unfold isPlayer. by rewrite bool_decide_true. }
    split_and!; [unfold isActive; by rewrite bool_decide_true | done | | done].
    intros _. unfold gamePiece. rewrite Hplayer. simpl.
    by rewrite bool_decide_true.
  - assert (isPlayer c = true) as Hplayer.
    { unfold isPlayer. rewrite (bool_decide_true (roleO c = _)) by done.
      by rewrite orb_true_r. }
    split_and!; [unfold isActive; by rewrite bool_decide_true | done | done |].
    intros _. unfold gamePiece. rewrite Hplayer. simpl.
    destruct (decide (roleX c = Some (ourId c))) as [HX|HX].
    + rewrite bool_decide_true; [done|]. rewrite <- Ho. unfold x, o.
      apply find_pointwise. intros q. apply bool_decide_ext.
      unfold ourId in HX. by rewrite HX, Hid.
    + by rewrite bool_decide_false by by apply not_eq_sym, x_not_ours.
Qed.

(** X7: without a game every getter gives its default: an empty board, no
    move, the status WAITING_TO_START, not active, no player for a role, no
    winner, nobody's turn, and the local player is not a player, so that
    [gamePiece] throws. *)
Theorem getters_without_game (c : Controller) :
  area_game (_model c) = None →
  board c = Return emptyBoard
  ∧ moveCount c = 0
  ∧ status c = WAITING_TO_START
  ∧ isActive c = false
  ∧ x c = None ∧ o c = None ∧ winner c = None
  ∧ whoseTurn c = None
  ∧ isOurTurn c = false
  ∧ isPlayer c = false
  ∧ gamePiece c = Throw (Error PLAYER_NOT_IN_GAME_ERROR).
Proof.
  intros Hgame.
  assert (gameState c = None) as Hgs by (unfold gameState; by rewrite Hgame).
  assert (∀ players : list PlayerController,
            find (λ player, bool_decide (None = Some (pc_id player))) players
            = None) as Hfind.
  { intros players. by apply (find_by_id None players). }
  unfold board, boardOf, moveCount, movesOf, isActive, status, x, o, winner,
    whoseTurn, isOurTurn, gamePiece, isPlayer, roleX, roleO.
  rewrite Hgame, Hgs. simpl. rewrite Hfind. done.
Qed.

(** ** More on sending a move *)

(** X8: [makeMove] calls the command channel exactly when there is a game,
    an instance identifier (a non-empty string) and the local player is a
    player of the game; it makes no test on the turn or on the status. It
    never calls the channel twice. The one call carries the instance
    identifier of the controller, the identifier of the game, the piece that
    [gamePiece] returns and the row and column as given, and the promise
    settles as this call does; without a call, the promise rejects. *)
Theorem makeMove_calls_channel_iff (c : Controller)
    (row col : TicTacToeGridPosition) :
  (mo_calls (makeMove c row col) ≠ [] ↔
   is_Some (area_game (_model c)) ∧ truthy (_instanceID c) = true
   ∧ isPlayer c = true)
  ∧ length (mo_calls (makeMove c row col)) ≤ 1
  ∧ (∀ call, call ∈ mo_calls (makeMove c row col) →
       _instanceID c = Some (call_instanceID call)
       ∧ game_id <$> area_game (_model c) = Some (cmd_gameID (call_command call))
       ∧ gamePiece c = Return (mv_gamePiece (cmd_move (call_command call)))
       ∧ mv_row (cmd_move (call_command call)) = row
       ∧ mv_col (cmd_move (call_command call)) = col
       ∧ mo_completion (makeMove c row col)
         = sendInteractableCommand (call_instanceID call) (call_command call))
  ∧ (mo_calls (makeMove c row col) = [] →
     ∃ message, mo_completion (makeMove c row col) = Throw (Error message)).
Proof.
  unfold makeMove, gamePiece.
  destruct (area_game (_model c)) as [game|]; simpl.
  2:{ split_and!; [|lia| |by eexists].
      - split; [done|]. by intros [[? [=]] _].
      - intros call Hin. by apply elem_of_nil in Hin. }
  destruct (_instanceID c) as [[|ch rest]|]; simpl.
  1,3: split_and!; [|lia| |by eexists];
    [split; [done|]; by intros (_ & [=] & _)
    |intros call Hin; by apply elem_of_nil in Hin].
  destruct (isPlayer c); simpl.
  - split_and!; [|lia| |done].
    + split; [by eauto|done].
    + intros call Hin. apply list_elem_of_singleton in Hin as ->. done.
  - split_and!; [|lia| |by eexists].
    + split; [done|]. by intros (_ & _ & [=]).
    + intros call Hin. by apply elem_of_nil in Hin.
Qed.

(** X9: [makeMove] never looks at the moves, the status or the winner of
    the game: two controllers with the same game identifier, instance
    identifier, roster, local player and roles send the same move and
    settle alike. No check of the turn or of the target cell is made before
    the command is sent. *)
Theorem makeMove_ignores_progress (c1 c2 : Controller)
    (row col : TicTacToeGridPosition) :
  game_id <$> area_game (_model c1) = game_id <$> area_game (_model c2) →
  _instanceID c1 = _instanceID c2 →
  _players c1 = _players c2 →
  _townController c1 = _townController c2 →
  roleX c1 = roleX c2 → roleO c1 = roleO c2 →
  makeMove c1 row col = makeMove c2 row col.
Proof.
  intros Hgame Hid Hplayers Htown HX HO.
  assert (gamePiece c1 = gamePiece c2) as Hpiece.
  { unfold gamePiece, isPlayer, x. by rewrite Hplayers, Htown, HX, HO. }
  unfold makeMove. rewrite Hid, Hpiece.
  destruct (area_game (_model c1)) as [g1|], (area_game (_model c2)) as [g2|];
    simpl in Hgame; try done.
  injection Hgame as ->. done.
Qed.

(** ** More on the update protocol *)

(** X10: a controller whose current model has a move on a row off the grid
    cannot be updated: [_updateFrom] throws on the read of the old board,
    before the base class is called; the controller is left as it is, with
    its old model, and no event is emitted. *)
Theorem updateFrom_unreadable_board (c : Controller) (newModel : GameArea) :
  Exists (λ mv, 3 ≤ mv_row mv) (movesOf (_model c)) →
  _updateFrom c newModel =
  {| upd_controller := c;
     upd_emitted := [];
     upd_completion := Throw (TypeError "Cannot set properties of undefined") |}.
Proof.
  intros Hoff. unfold _updateFrom, board, boardOf.
  by rewrite (replay_row_off_grid _ emptyBoard eq_refl emptyBoard_rows Hoff).
Qed.

(** X11: an update to a model with a move on a row off the grid is not
    refused as a whole: the base class installs the model and emits its
    events, then the read of the new board throws, and no [boardChanged] or
    [turnChanged] is emitted; every later update throws and leaves the
    controller with this model. *)
Theorem updateFrom_off_grid_model (c : Controller) (newModel : GameArea) :
  Forall (λ mv, mv_row mv < 3) (movesOf (_model c)) →
  Exists (λ mv, 3 ≤ mv_row mv) (movesOf newModel) →
  let out := _updateFrom c newModel in
  upd_controller out = (super_updateFrom c newModel).1
  ∧ _model (upd_controller out) = newModel
  ∧ upd_emitted out = inherited <$> (super_updateFrom c newModel).2
  ∧ upd_completion out = Throw (TypeError "Cannot set properties of undefined")
  ∧ ∀ next, upd_controller (_updateFrom (upd_controller out) next)
            = upd_controller out
            ∧ upd_emitted (_updateFrom (upd_controller out) next) = [].
Proof.
  intros Hin Hoff out.
  assert (out = {| upd_controller := (super_updateFrom c newModel).1;
                   upd_emitted := inherited <$> (super_updateFrom c newModel).2;
                   upd_completion :=
                     Throw (TypeError "Cannot set properties of undefined") |})
    as ->.
  { subst out. unfold _updateFrom, board, boardOf.
    destruct (replay_any_column _ emptyBoard emptyGrid Hin eq_refl
                emptyBoard_rows cellAt_emptyBoard) as (b & -> & _).
    pose proof (super_installs_model c newModel) as Hmodel.
    destruct (super_updateFrom c newModel) as [c1 baseEvents]; simpl in *.
    rewrite Hmodel.
    by rewrite (replay_row_off_grid _ emptyBoard eq_refl emptyBoard_rows Hoff). }
  simpl. split_and!; [done | apply super_installs_model | done | done |].
  intros next. unfold _updateFrom, board, boardOf.
    rewrite super_installs_model.
    by rewrite (replay_row_off_grid _ emptyBoard eq_refl emptyBoard_rows Hoff).
Qed.

(** X12: [JSON.stringify] tells any two boards apart, whatever their
    shapes: the texts of two boards are equal exactly when the boards are
    the same arrays of the same cells, so that the test of [_updateFrom]
    neither misses a change nor reports one that is none. *)
Theorem stringify_eq_iff (b1 b2 : Board) :
  JSON.stringify b1 = JSON.stringify b2 ↔ b1 = b2.
Proof. split; [apply stringify_inj | by intros ->]. Qed.




Lemma isOurTurn_player (c : Controller) :
  isOurTurn c = true → status c = IN_PROGRESS ∧ isPlayer c = true.
Proof.
  intros Hours.
  assert (status c = IN_PROGRESS
          ∧ whoseTurn c = Some (ourPlayer (_townController c))) as [Hst Hturn].
  { unfold isOurTurn, status in *. destruct (gameState c) as [gs|]; [|done].
    destruct (decide (gs_status gs = IN_PROGRESS)) as [Hin|Hout].
    - rewrite bool_decide_false in Hours by (intros Hne; by apply Hne).
      by apply bool_decide_eq_true in Hours.
    - by rewrite bool_decide_true in Hours. }
  split; [done|]. unfold isPlayer.
  destruct (whoseTurn_sound_aux c _ Hturn) as [(_ & _ & Hid)|(_ & _ & Hid)].
  - by rewrite bool_decide_true.
  - rewrite (bool_decide_true (roleO c = _)) by done. by rewrite orb_true_r.
Qed.

(** X19: when an update emits [turnChanged] with [true], the controller
    holds the new model, the game is active there, it is our turn and the
    local player is a player of the game; with an instance identifier
    attached, a call of [makeMove] then sends one command, for the row and
    the column given. *)
Theorem updateFrom_turnChanged_true (c : Controller) (newModel : GameArea) :
  Forall (λ mv, mv_row mv < 3) (movesOf (_model c)) →
  Forall (λ mv, mv_row mv < 3) (movesOf newModel) →
  true ∈ turnChangedEvents (upd_emitted (_updateFrom c newModel)) →
  let c' := upd_controller (_updateFrom c newModel) in
  _model c' = newModel
  ∧ isOurTurn c' = true
  ∧ isActive c' = true
  ∧ isPlayer c' = true
  ∧ (truthy (_instanceID c') = true →
     ∀ row col,
       ∃ call, mo_calls (makeMove c' row col) = [call]
               ∧ mv_row (cmd_move (call_command call)) = row
               ∧ mv_col (cmd_move (call_command call)) = col).
Proof.
  intros Hin Hin'.
  destruct (replay_any_column _ emptyBoard emptyGrid Hin eq_refl
              emptyBoard_rows cellAt_emptyBoard) as (oldBoard & Hold & _).
  destruct (replay_any_column _ emptyBoard emptyGrid Hin' eq_refl
              emptyBoard_rows cellAt_emptyBoard) as (newBoard & Hnew & _).
  rewrite (updateFrom_unfold c newModel oldBoard newBoard Hold Hnew). simpl.
  set (c' := (super_updateFrom c newModel).1).
  rewrite !turnChangedEvents_app, turnChangedEvents_inherited. simpl.
  intros Htrue.
  assert (isOurTurn c' = true) as Hours.
  { destruct (bool_decide (JSON.stringify oldBoard ≠ JSON.stringify newBoard)),
      (bool_decide (turnId c ≠ turnId c')); simpl in Htrue;
      try (by apply elem_of_nil in Htrue).
    all: by apply list_elem_of_singleton in Htrue. }
  destruct (isOurTurn_player c' Hours) as [Hst Hplayer].
  split_and!; [apply super_installs_model | done | | done |].
  - unfold isActive. by rewrite bool_decide_true.
  - intros Hid row col. unfold makeMove, gamePiece. rewrite Hplayer. simpl.
    assert (is_Some (area_game (_model c'))) as [game ->].
    { unfold status, gameState in Hst.
      destruct (area_game (_model c')); [by eexists | done]. }
    destruct (_instanceID c') as [[|ch rest]|]; simpl in Hid; try discriminate.
    by eexists.
Qed.

End Commands.

(** ** The properties at sample states *)

Lemma base_updateFrom_installs_model (c : Controller) (newModel : GameArea) :
  _model (base_updateFrom c newModel).1 = newModel.
Proof. reflexivity. Defined.

Lemma well_typed_opening : well_typed opening.
Proof. constructor. Defined.

Lemma well_typed_afterOne : well_typed afterOne.
Proof. repeat constructor; simpl; lia. Defined.

Lemma well_typed_afterTwo : well_typed afterTwo.
Proof. repeat constructor; simpl; lia. Defined.

Lemma board_replays_moves_witness :
  well_typed (_model (controllerOf afterTwo [alice; bob] alice))
  ∧ ∃ b, board (controllerOf afterTwo [alice; bob] alice) = Return b
         ∧ is3x3 b
         ∧ cellAt b 1 1 = Some O
         ∧ cellAt b 0 2 = None.
Proof.
  split; [exact well_typed_afterTwo|].
  destruct (board_replays_moves (controllerOf afterTwo [alice; bob] alice)
              well_typed_afterTwo)
    as (b & Hb & Hshape & _ & Hlast & Hempty & _).
  exists b. split_and!; [done..| |].
  - apply (Hlast [move X 1 1] (move O 1 1) []); [reflexivity | constructor].
  - apply Hempty. repeat constructor; intros [? ?]; discriminate.
Defined.

Lemma board_total_witness :
  well_typed (_model (controllerOf afterTwo [alice; bob] alice))
  ∧ ∃ b, board (controllerOf afterTwo [alice; bob] alice) = Return b
         ∧ cellAt b 1 1 = Some O.
Proof.
  split; [exact well_typed_afterTwo|].
  destruct (board_total (controllerOf afterTwo [alice; bob] alice)
              well_typed_afterTwo) as (b & Hb & Hover).
  exists b. split; [done|].
  apply (Hover [] [] [] (move X 1 1) (move O 1 1));
    [reflexivity | by split | constructor].
Defined.

Lemma updateFrom_boardChanged_witness :
  well_typed (_model (controllerOf opening [alice; bob] alice))
  ∧ well_typed afterOne
  ∧ boardChangedEvents
      (upd_emitted (_updateFrom GameEventTypes base_updateFrom
                      (controllerOf opening [alice; bob] alice) afterOne))
    = [ [ [None; None; None]; [None; Some X; None]; [None; None; None] ] ].
Proof.
  split; [exact well_typed_opening|]. split; [exact well_typed_afterOne|].
  destruct (updateFrom_boardChanged GameEventTypes base_updateFrom
              base_updateFrom_installs_model
              (controllerOf opening [alice; bob] alice) afterOne
              well_typed_opening well_typed_afterOne)
    as (oldBoard & newBoard & Hold & Hnew & _ & _ & Hdiffer & _ & _).
  injection Hold as <-. injection Hnew as <-.
  apply Hdiffer. exists 1, 1. split; [lia|]. split; [lia|]. discriminate.
Defined.

Lemma updateFrom_turnChanged_witness :
  well_typed (_model (controllerOf opening [alice; bob] alice))
  ∧ well_typed afterOne
  ∧ turnChangedEvents
      (upd_emitted (_updateFrom GameEventTypes base_updateFrom
                      (controllerOf opening [alice; bob] alice) afterOne))
    = [false].
Proof.
  split; [exact well_typed_opening|]. split; [exact well_typed_afterOne|].
  destruct (updateFrom_turnChanged GameEventTypes base_updateFrom
              base_updateFrom_installs_model
              (controllerOf opening [alice; bob] alice) afterOne
              well_typed_opening well_typed_afterOne)
    as (oldBoard & newBoard & _ & _ & _ & _ & _ & Hturn & _).
  apply Hturn. discriminate.
Defined.



(** The piece by the identifiers alone does not hold where the roster does
    not hold the local player. *)
Lemma gamePiece_as_stated_fails :
  ¬ gamePiece_as_stated (controllerOf unlisted [bob] alice).
Proof.
  intros Hclaim. destruct (Hclaim eq_refl) as [HX _].
  specialize (HX eq_refl). discriminate.
Qed.

(** C5: the code at the snapshot [unlisted], whose role X names Alice and
    whose players do not, with Alice as the local player. [isPlayer], which
    compares identifiers, is true, and the identifier of role X is Alice's
    and that of role O is not; but [x], which looks role X up in the
    roster, finds nobody, and [gamePiece], which compares the local player
    with what [x] returns, gives O where its documentation and the claim
    give X. *)
Theorem gamePiece_unlisted_player :
  isPlayer (controllerOf unlisted [bob] alice) = true
  ∧ roleX (controllerOf unlisted [bob] alice)
    = Some (ourId (controllerOf unlisted [bob] alice))
  ∧ roleO (controllerOf unlisted [bob] alice)
    ≠ Some (ourId (controllerOf unlisted [bob] alice))
  ∧ x (controllerOf unlisted [bob] alice) = None
  ∧ gamePiece (controllerOf unlisted [bob] alice) = Return O.
Proof. split_and!; try reflexivity. discriminate. Qed.

Lemma gamePiece_of_player_witness :
  (isPlayer (controllerOf opening [alice; bob] alice) = true
   ∧ roleX (controllerOf opening [alice; bob] alice) = Some "alice"
   ∧ resolves [alice; bob] alice)
  ∧ gamePiece (controllerOf opening [alice; bob] alice) = Return X.
Proof.
  split; [by split_and!|].
  apply (gamePiece_of_player (controllerOf opening [alice; bob] alice));
    reflexivity.
Defined.

Lemma gamePiece_throws_iff_witness :
  (roleX (controllerOf opening [alice; bob] carol) ≠ Some "carol"
   ∧ roleO (controllerOf opening [alice; bob] carol) ≠ Some "carol")
  ∧ gamePiece (controllerOf opening [alice; bob] carol)
    = Throw (Error PLAYER_NOT_IN_GAME_ERROR).
Proof.
  assert (roleX (controllerOf opening [alice; bob] carol) ≠ Some "carol"
          ∧ roleO (controllerOf opening [alice; bob] carol) ≠ Some "carol")
    as Hneither by (split; discriminate).
  split; [exact Hneither|].
  by apply (gamePiece_throws_iff (controllerOf opening [alice; bob] carol)).
Defined.

Lemma isOurTurn_iff_witness :
  (status (controllerOf opening [alice; bob] alice) = IN_PROGRESS
   ∧ whoseTurn (controllerOf opening [alice; bob] alice) = Some alice)
  ∧ isOurTurn (controllerOf opening [alice; bob] alice) = true.
Proof.
  split; [by split|].
  by apply (isOurTurn_iff (controllerOf opening [alice; bob] alice)).
Defined.

Lemma makeMove_precondition_errors_witness :
  (area_game (_model (controllerOf noGame [] alice)) = None
   ∧ is_Some (area_game (_model (detached opening [alice; bob] alice)))
   ∧ truthy (_instanceID (detached opening [alice; bob] alice)) = false)
  ∧ makeMove acknowledging_channel (controllerOf noGame [] alice) 0 0
    = {| mo_calls := [];
         mo_completion := Throw (Error NO_GAME_IN_PROGRESS_ERROR) |}
  ∧ mo_calls (makeMove acknowledging_channel
                (detached opening [alice; bob] alice) 0 0) = [].
Proof.
  split; [split_and!; [reflexivity | by eexists | reflexivity]|]. split.
  - apply (makeMove_precondition_errors acknowledging_channel
             (controllerOf noGame [] alice) 0 0). reflexivity.
  - apply (makeMove_precondition_errors acknowledging_channel
             (detached opening [alice; bob] alice) 0 0);
      [by eexists | reflexivity].
Defined.

Lemma makeMove_not_player_witness :
  (is_Some (area_game (_model (controllerOf opening [alice; bob] carol)))
   ∧ truthy (_instanceID (controllerOf opening [alice; bob] carol)) = true
   ∧ isPlayer (controllerOf opening [alice; bob] carol) = false)
  ∧ makeMove acknowledging_channel (controllerOf opening [alice; bob] carol) 2 2
    = {| mo_calls := [];
         mo_completion := Throw (Error PLAYER_NOT_IN_GAME_ERROR) |}.
Proof.
  split; [split_and!; [by eexists | reflexivity | reflexivity]|].
  apply (makeMove_not_player acknowledging_channel
           (controllerOf opening [alice; bob] carol) 2 2);
    [by eexists | reflexivity | reflexivity].
Defined.

(** The two states above are those that an update to the snapshot leaves,
    with the base class of the examples: the roster is made of the players
    that the snapshot lists. *)
Example sample_states_from_updates :
  upd_controller (_updateFrom GameEventTypes base_updateFrom
                    (controllerOf noGame [] bob) namelessGame)
  = controllerOf namelessGame [nameless; bob] bob
  ∧ upd_controller (_updateFrom GameEventTypes base_updateFrom
                      (controllerOf noGame [] alice) unlisted)
    = controllerOf unlisted [bob] alice.
Proof. split; reflexivity. Qed.

(** Where both roles name the local player, the piece is X. *)
Example gamePiece_both_roles :
  isPlayer (controllerOf bothRoles [alice] alice) = true
  ∧ roleO (controllerOf bothRoles [alice] alice) = Some "alice"
  ∧ gamePiece (controllerOf bothRoles [alice] alice) = Return X.
Proof. repeat split. Qed.

(** ** Runs of the update protocol *)

(** The two events are independent: an update may emit both, the board
    event alone, the turn event alone, or neither. *)
Example updateFrom_emissions_independent :
  upd_emitted (_updateFrom GameEventTypes base_updateFrom
                 (controllerOf opening [alice; bob] alice) afterOne)
  = [ inherited gameUpdated;
      boardChanged [ [None; None; None]; [None; Some X; None]; [None; None; None] ];
      turnChanged false ]
  ∧ upd_emitted (_updateFrom GameEventTypes base_updateFrom
                   (controllerOf (unassigned []) [] alice)
                   (unassigned [move X 0 0]))
    = [ inherited gameUpdated;
        boardChanged [ [Some X; None; None]; [None; None; None]; [None; None; None] ] ]
  ∧ upd_emitted (_updateFrom GameEventTypes base_updateFrom
                   (controllerOf opening [alice; bob] alice) abandoned)
    = [ inherited gameUpdated; inherited gameEnd; turnChanged false ]
  ∧ upd_emitted (_updateFrom GameEventTypes base_updateFrom
                   (controllerOf opening [alice; bob] alice) openingWatched)
    = [ inherited gameUpdated ].
Proof. repeat split. Qed.

(** Seen from Bob, the first move of Alice makes it his turn. *)
Example updateFrom_first_move_seen_by_bob :
  upd_emitted (_updateFrom GameEventTypes base_updateFrom
                 (controllerOf opening [alice; bob] bob) afterOne)
  = [ inherited gameUpdated;
      boardChanged [ [None; None; None]; [None; Some X; None]; [None; None; None] ];
      turnChanged true ].
Proof. reflexivity. Qed.

(** A snapshot with a move off the grid is installed by the base class, and
    the read of the new board then throws: no event of this class is
    emitted. *)
Example updateFrom_off_grid_throws :
  upd_emitted (_updateFrom GameEventTypes base_updateFrom
                 (controllerOf opening [alice; bob] alice) offGrid)
  = [ inherited gameUpdated ]
  ∧ upd_completion (_updateFrom GameEventTypes base_updateFrom
                      (controllerOf opening [alice; bob] alice) offGrid)
    = Throw (TypeError "Cannot set properties of undefined").
Proof. split; reflexivity. Qed.

(** A column off the grid extends the row instead. *)
Example board_column_off_grid :
  boardOf (unassigned [move O 0 4])
  = Return [ [None; None; None; None; Some O]; [None; None; None]; [None; None; None] ].
Proof. reflexivity. Qed.

(** The examples of the specification: on no move X is to play, after one
    move O is to play. *)
Example whoseTurn_opening :
  whoseTurn (controllerOf opening [alice; bob] bob) = Some alice
  ∧ whoseTurn (controllerOf afterOne [alice; bob] bob) = Some bob
  ∧ whoseTurn (controllerOf abandoned [alice; bob] bob) = None.
Proof. repeat split. Qed.

(** Without a game: the status defaults, the board is empty and the game is
    not active. *)
Example no_game_defaults :
  status (controllerOf noGame [] alice) = WAITING_TO_START
  ∧ board (controllerOf noGame [] alice) = Return emptyBoard
  ∧ isActive (controllerOf noGame [] alice) = false
  ∧ moveCount (controllerOf noGame [] alice) = 0.
Proof. repeat split. Qed.

(** A player of the game sends its move to the instance of the game. *)
Example makeMove_alice :
  makeMove acknowledging_channel (controllerOf opening [alice; bob] alice) 0 1
  = {| mo_calls :=
         [ {| call_instanceID := "game-1";
              call_command := {| cmd_gameID := "game-1";
                                 cmd_move := move X 0 1 |} |} ];
       mo_completion := Return tt |}.
Proof. reflexivity. Qed.

(** ** The components *)

(** X15: for a well-typed model, [TicTacToeBoard] renders three rows of
    three squares; the square of row [r] and column [k] has the key [r-k]
    and the label [Cell r,k] and shows the cell of the board at this
    position, the piece of the last move there or nothing; no two squares
    have the same label or the same key. *)
Theorem TicTacToeBoard_squares (c : Controller) :
  well_typed (_model c) →
  ∃ squares,
    TicTacToeBoard c = Return squares
    ∧ length squares = 3
    ∧ Forall (λ row, length row = 3) squares
    ∧ (∀ r k, r < 3 → k < 3 →
         ∃ sq, squares !! r ≫= (.!! k) = Some sq
               ∧ sq_key sq = numberText r +:+ "-" +:+ numberText k
               ∧ sq_ariaLabel sq
                 = "Cell " +:+ numberText r +:+ "," +:+ numberText k
               ∧ sq_children sq = deriveBoard (movesOf (_model c)) r k)
    ∧ NoDup (sq_ariaLabel <$> concat squares)
    ∧ NoDup (sq_key <$> concat squares).
Proof.
  intros Hwt. unfold TicTacToeBoard, board, boardOf.
  destruct (replay_emptyBoard _ Hwt) as (b & -> & Hshape & Hcells).
  apply is3x3_inv in Hshape
    as (a0 & a1 & a2 & a3 & a4 & a5 & a6 & a7 & a8 & ->).
  eexists. split; [reflexivity|]. split; [done|]. split; [by repeat constructor|].
  split; [|split].
  - intros r k Hr Hk. rewrite <- Hcells.
    destruct r as [|[|[|r]]]; [| | |lia];
      (destruct k as [|[|[|k]]]; [| | |lia]);
      eexists; (split; [reflexivity|]); by split_and!.
  - simpl. by apply (bool_decide_unpack _); vm_compute.
  - simpl. by apply (bool_decide_unpack _); vm_compute.
Qed.

(** X16: once its status is loaded, [TicTacToeArea] reads [gamePiece]
    before anything else, so that for a local player who is not a player of
    the game the render throws the error PLAYER_NOT_IN_GAME; whenever the
    area is rendered, the local player is a player of the game and the Join
    New Game button, which is for the others, is not rendered. Before the
    status is loaded the render is the loading text, for everybody. *)
Theorem TicTacToeArea_never_offers_to_join (userName : PlayerController → string)
    (gameStatus : option GameStatus) (isLoading : bool) (c : Controller) :
  (gameStatus = None →
   TicTacToeArea userName gameStatus isLoading c = Return Loading)
  ∧ (is_Some gameStatus → isPlayer c = false →
     TicTacToeArea userName gameStatus isLoading c
     = Throw (Error PLAYER_NOT_IN_GAME_ERROR))
  ∧ (∀ view,
       TicTacToeArea userName gameStatus isLoading c = Return (Area view) →
       isPlayer c = true ∧ view_joinButton view = None).
Proof.
  unfold TicTacToeArea, gamePiece. split_and!.
  - by intros ->.
  - intros [st ->] ->. done.
  - intros view. destruct gameStatus as [st|]; [|done].
    destruct (isPlayer c); simpl; [|done].
    intros [= <-]. simpl. by rewrite andb_false_r.
Qed.

Lemma isOurTurn_whoseTurn (c : Controller) :
  isOurTurn c = true → whoseTurn c = Some (ourPlayer (_townController c)).
Proof.
  unfold isOurTurn. destruct (gameState c) as [gs|]; [|done].
  destruct (bool_decide (gs_status gs ≠ IN_PROGRESS)); [done|].
  intros Hours. by apply bool_decide_eq_true in Hours.
Qed.

(** X17: the message of [TicTacToeArea], for a player of the game. When the
    status held by the component is not IN_PROGRESS, it is the text that
    the game has not yet started, or that it is over. When it is
    IN_PROGRESS, the message counts the moves and names the turn: where
    nobody's turn can be resolved, an unknown player; and where it is our
    turn and our identifier is neither [player x] nor [player o], our own
    user name (or an unknown player, if the name is empty) and not the
    word [your]. *)
Theorem TicTacToeArea_message (userName : PlayerController → string)
    (st : GameStatus) (isLoading : bool) (c : Controller) :
  isPlayer c = true →
  ∃ view,
    TicTacToeArea userName (Some st) isLoading c = Return (Area view)
    ∧ (st = WAITING_TO_START → view_message view = "Game not yet started.")
    ∧ (st = OVER → view_message view = "Game over.")
    ∧ (st = IN_PROGRESS → whoseTurn c = None →
       view_message view
       = "Game in progress, " +:+ numberText (moveCount c)
         +:+ " moves in, currently unknown player turn.")
    ∧ (st = IN_PROGRESS → isOurTurn c = true →
       ourId c ≠ "player x" → ourId c ≠ "player o" →
       view_message view
       = "Game in progress, " +:+ numberText (moveCount c)
         +:+ " moves in, currently "
         +:+ (match userName (ourPlayer (_townController c)) with
              | EmptyString => "unknown player"
              | name => name +:+ "'s"
              end)
         +:+ " turn.").
Proof.
  intros Hplayer. unfold TicTacToeArea, gamePiece. rewrite Hplayer. simpl.
  eexists. split; [reflexivity|]. simpl. split_and!.
  - by intros ->.
  - by intros ->.
  - intros -> Hnone. unfold turnId. rewrite Hnone. done.
  - intros -> Hours HX HO.
    apply isOurTurn_whoseTurn in Hours. unfold turnId. rewrite Hours. simpl.
    rewrite bool_decide_false.
    2:{ intros [= Hid]. unfold ourId in *.
        destruct (bool_decide _); cbv [pieceLower String.append] in Hid;
          congruence. }
    by destruct (userName (ourPlayer (_townController c))).
Qed.

(** X18: the toast at the end of a game. For a local player who is not a
    player of the game the handler throws the error PLAYER_NOT_IN_GAME and
    shows no toast. For a player of the game, the toast tells a tie exactly
    when [winner] resolves to nobody; when it resolves to a player whose
    identifier, in lower case, is neither [player x] nor [player o], the
    toast is the one of the loser, also when this player is the local
    player. *)
Theorem gameEndEventHandler_toasts (toLocaleLowerCase : string → string)
    (c : Controller) :
  (isPlayer c = false →
   gameEndEventHandler toLocaleLowerCase c
   = Throw (Error PLAYER_NOT_IN_GAME_ERROR))
  ∧ (isPlayer c = true →
     ∃ toast,
       gameEndEventHandler toLocaleLowerCase c = Return toast
       ∧ toast_duration toast = 5000 ∧ toast_isClosable toast = true
       ∧ (toast_description toast = "Game ended in a tie" ↔ winner c = None)
       ∧ (∀ w, winner c = Some w →
               toLocaleLowerCase (pc_id w) ≠ "player x" →
               toLocaleLowerCase (pc_id w) ≠ "player o" →
               toast_description toast = "You lost :("
               ∧ toast_status toast = error)).
Proof.
  unfold gameEndEventHandler, gamePiece. split.
  - by intros ->.
  - intros ->. simpl. destruct (winner c) as [w|]; simpl.
    + destruct (bool_decide _) eqn:Hwon; simpl.
      * eexists. split; [reflexivity|]. split_and!; try done.
        intros w' [= <-] HX HO. apply bool_decide_eq_true in Hwon.
        injection Hwon as Hwon.
        destruct (bool_decide (Some _ = x c));
          cbv [pieceLower String.append] in Hwon; congruence.
      * eexists. split; [reflexivity|]. split_and!; try done.
    + eexists. split; [reflexivity|]. split_and!; try done.
Qed.

(** ** The further properties at sample states *)

Lemma board_throws_off_grid_witness :
  Exists (λ mv, 3 ≤ mv_row mv)
         (movesOf (_model (controllerOf offGrid [alice; bob] alice)))
  ∧ ∃ message,
      board (controllerOf offGrid [alice; bob] alice) = Throw (TypeError message).
Proof.
  assert (Exists (λ mv, 3 ≤ mv_row mv)
                 (movesOf (_model (controllerOf offGrid [alice; bob] alice))))
    as Hoff by (apply Exists_cons_hd; simpl; lia).
  split; [exact Hoff|].
  by apply (board_throws_off_grid (controllerOf offGrid [alice; bob] alice)).
Defined.

Lemma board_any_column_witness :
  Forall (λ mv, mv_row mv < 3)
         (movesOf (_model (controllerOf (unassigned [move O 0 4]) [] alice)))
  ∧ ∃ b, board (controllerOf (unassigned [move O 0 4]) [] alice) = Return b
         ∧ length b = 3
         ∧ cellAt b 0 4 = Some O.
Proof.
  assert (Forall (λ mv, mv_row mv < 3)
            (movesOf (_model (controllerOf (unassigned [move O 0 4]) [] alice))))
    as Hin by (repeat constructor; simpl; lia).
  split; [exact Hin|].
  destruct (board_any_column _ Hin) as (b & Hb & Hlen & _ & Hcells).
  exists b. split_and!; [done..|]. by rewrite Hcells.
Defined.

Lemma board_pieces_from_moves_witness :
  (board (controllerOf afterTwo [alice; bob] alice)
   = Return [ [None; None; None]; [None; Some O; None]; [None; None; None] ]
   ∧ cellAt [ [None; None; None]; [None; Some O; None]; [None; None; None] ] 1 1
     = Some O)
  ∧ ∃ mv, mv ∈ movesOf (_model (controllerOf afterTwo [alice; bob] alice))
          ∧ targets mv 1 1 ∧ mv_gamePiece mv = O.
Proof.
  split; [by split|].
  apply (board_pieces_from_moves (controllerOf afterTwo [alice; bob] alice)
           [ [None; None; None]; [None; Some O; None]; [None; None; None] ]
           1 1 O); reflexivity.
Defined.

Lemma role_getters_lookup_witness :
  (NoDup (pc_id <$> _players (controllerOf afterOne [alice; bob] carol))
   ∧ bob ∈ _players (controllerOf afterOne [alice; bob] carol)
   ∧ roleO (controllerOf afterOne [alice; bob] carol) = Some (pc_id bob))
  ∧ o (controllerOf afterOne [alice; bob] carol) = Some bob.
Proof.
  assert (NoDup (pc_id <$> _players (controllerOf afterOne [alice; bob] carol)))
    as Hnd by (by apply (bool_decide_unpack _); vm_compute).
  assert (bob ∈ _players (controllerOf afterOne [alice; bob] carol))
    as Hin by (apply list_elem_of_further, list_elem_of_here).
  split; [by split_and!|].
  by apply (role_getters_lookup (controllerOf afterOne [alice; bob] carol)).
Defined.

Lemma whoseTurn_sound_witness :
  whoseTurn (controllerOf afterOne [alice; bob] alice) = Some bob
  ∧ status (controllerOf afterOne [alice; bob] alice) = IN_PROGRESS
  ∧ bob ∈ _players (controllerOf afterOne [alice; bob] alice).
Proof.
  split; [reflexivity|].
  destruct (whoseTurn_sound (controllerOf afterOne [alice; bob] alice) bob
              eq_refl) as (Hst & Hin & _).
  by split.
Defined.

Lemma isOurTurn_gamePiece_witness :
  isOurTurn (controllerOf afterOne [alice; bob] bob) = true
  ∧ isPlayer (controllerOf afterOne [alice; bob] bob) = true
  ∧ gamePiece (controllerOf afterOne [alice; bob] bob) = Return O.
Proof.
  split; [reflexivity|].
  destruct (isOurTurn_gamePiece (controllerOf afterOne [alice; bob] bob)
              eq_refl) as (_ & Hplayer & _ & Hodd).
  split; [done|]. by rewrite Hodd.
Defined.

Lemma getters_without_game_witness :
  area_game (_model (controllerOf noGame [alice] alice)) = None
  ∧ isPlayer (controllerOf noGame [alice] alice) = false
  ∧ whoseTurn (controllerOf noGame [alice] alice) = None.
Proof.
  split; [reflexivity|].
  destruct (getters_without_game (controllerOf noGame [alice] alice) eq_refl)
    as (_ & _ & _ & _ & _ & _ & _ & Hturn & _ & Hplayer & _).
  by split.
Defined.

Lemma makeMove_calls_channel_iff_witness :
  (is_Some (area_game (_model (controllerOf abandoned [alice; bob] bob)))
   ∧ truthy (_instanceID (controllerOf abandoned [alice; bob] bob)) = true
   ∧ isPlayer (controllerOf abandoned [alice; bob] bob) = true)
  ∧ mo_calls (makeMove acknowledging_channel
                (controllerOf abandoned [alice; bob] bob) 1 1) ≠ [].
Proof.
  assert (is_Some (area_game (_model (controllerOf abandoned [alice; bob] bob)))
          ∧ truthy (_instanceID (controllerOf abandoned [alice; bob] bob)) = true
          ∧ isPlayer (controllerOf abandoned [alice; bob] bob) = true)
    as Hguards by (split_and!; [by eexists | reflexivity | reflexivity]).
  split; [exact Hguards|].
  by apply (makeMove_calls_channel_iff acknowledging_channel
              (controllerOf abandoned [alice; bob] bob) 1 1).
Defined.

Lemma makeMove_ignores_progress_witness :
  (game_id <$> area_game (_model (controllerOf opening [alice; bob] bob))
   = game_id <$> area_game (_model (controllerOf aliceWon [alice; bob] bob))
   ∧ roleX (controllerOf opening [alice; bob] bob)
     = roleX (controllerOf aliceWon [alice; bob] bob)
   ∧ roleO (controllerOf opening [alice; bob] bob)
     = roleO (controllerOf aliceWon [alice; bob] bob))
  ∧ makeMove acknowledging_channel (controllerOf opening [alice; bob] bob) 0 0
    = makeMove acknowledging_channel (controllerOf aliceWon [alice; bob] bob) 0 0.
Proof.
  split; [by split_and!|].
  apply (makeMove_ignores_progress acknowledging_channel
           (controllerOf opening [alice; bob] bob)
           (controllerOf aliceWon [alice; bob] bob) 0 0); reflexivity.
Defined.

Lemma updateFrom_unreadable_board_witness :
  Exists (λ mv, 3 ≤ mv_row mv)
         (movesOf (_model (controllerOf offGrid [alice; bob] alice)))
  ∧ upd_controller (_updateFrom GameEventTypes base_updateFrom
                      (controllerOf offGrid [alice; bob] alice) opening)
    = controllerOf offGrid [alice; bob] alice.
Proof.
  assert (Exists (λ mv, 3 ≤ mv_row mv)
                 (movesOf (_model (controllerOf offGrid [alice; bob] alice))))
    as Hoff by (apply Exists_cons_hd; simpl; lia).
  split; [exact Hoff|].
  by rewrite (updateFrom_unreadable_board GameEventTypes base_updateFrom
                (controllerOf offGrid [alice; bob] alice) opening Hoff).
Defined.

Lemma updateFrom_off_grid_model_witness :
  (Forall (λ mv, mv_row mv < 3)
          (movesOf (_model (controllerOf opening [alice; bob] alice)))
   ∧ Exists (λ mv, 3 ≤ mv_row mv) (movesOf offGrid))
  ∧ _model (upd_controller (_updateFrom GameEventTypes base_updateFrom
                              (controllerOf opening [alice; bob] alice) offGrid))
    = offGrid
  ∧ upd_completion (_updateFrom GameEventTypes base_updateFrom
                      (controllerOf opening [alice; bob] alice) offGrid)
    = Throw (TypeError "Cannot set properties of undefined").
Proof.
  assert (Forall (λ mv, mv_row mv < 3)
            (movesOf (_model (controllerOf opening [alice; bob] alice))))
    as Hin by constructor.
  assert (Exists (λ mv, 3 ≤ mv_row mv) (movesOf offGrid))
    as Hoff by (apply Exists_cons_hd; simpl; lia).
  split; [by split|].
  destruct (updateFrom_off_grid_model GameEventTypes base_updateFrom
              base_updateFrom_installs_model
              (controllerOf opening [alice; bob] alice) offGrid Hin Hoff)
    as (_ & Hmodel & _ & Hthrow & _).
  by split.
Defined.

Lemma stringify_eq_iff_witness :
  JSON.stringify [ [Some X; None] ] ≠ JSON.stringify [ [Some X]; [None] ].
Proof.
  intros Heq.
  apply (stringify_eq_iff [ [Some X; None] ] [ [Some X]; [None] ]) in Heq.
  discriminate.
Defined.



Lemma TicTacToeBoard_squares_witness :
  well_typed (_model (controllerOf afterTwo [alice; bob] alice))
  ∧ ∃ squares sq,
      TicTacToeBoard (controllerOf afterTwo [alice; bob] alice) = Return squares
      ∧ squares !! 1 ≫= (.!! 1) = Some sq
      ∧ sq_ariaLabel sq = "Cell 1,1"
      ∧ sq_children sq = Some O.
Proof.
  split; [exact well_typed_afterTwo|].
  destruct (TicTacToeBoard_squares (controllerOf afterTwo [alice; bob] alice)
              well_typed_afterTwo)
    as (squares & Hrender & _ & _ & Hsquares & _).
  destruct (Hsquares 1 1) as (sq & Hsq & _ & Hlabel & Hchildren); [lia..|].
  exists squares, sq. by split_and!.
Defined.

Lemma TicTacToeArea_never_offers_to_join_witness :
  (is_Some (Some WAITING_TO_START)
   ∧ isPlayer (controllerOf opening [alice; bob] carol) = false)
  ∧ TicTacToeArea sampleName (Some WAITING_TO_START) false
      (controllerOf opening [alice; bob] carol)
    = Throw (Error PLAYER_NOT_IN_GAME_ERROR).
Proof.
  split; [by split|].
  apply (TicTacToeArea_never_offers_to_join sampleName (Some WAITING_TO_START)
           false (controllerOf opening [alice; bob] carol));
    [by eexists | reflexivity].
Defined.

Lemma TicTacToeArea_message_witness :
  (isPlayer (controllerOf opening [alice; bob] alice) = true
   ∧ isOurTurn (controllerOf opening [alice; bob] alice) = true)
  ∧ ∃ view,
      TicTacToeArea sampleName (Some IN_PROGRESS) false
        (controllerOf opening [alice; bob] alice) = Return (Area view)
      ∧ view_message view
        = "Game in progress, 0 moves in, currently alice's turn.".
Proof.
  split; [by split|].
  destruct (TicTacToeArea_message sampleName IN_PROGRESS false
              (controllerOf opening [alice; bob] alice) eq_refl)
    as (view & Hview & _ & _ & _ & Hmessage).
  exists view. split; [exact Hview|].
  rewrite Hmessage; [reflexivity | reflexivity | reflexivity | discriminate..].
Defined.

Lemma gameEndEventHandler_toasts_witness :
  (isPlayer (controllerOf aliceWon [alice; bob] alice) = true
   ∧ winner (controllerOf aliceWon [alice; bob] alice) = Some alice)
  ∧ ∃ toast,
      gameEndEventHandler sampleLowerCase (controllerOf aliceWon [alice; bob] alice)
      = Return toast
      ∧ toast_description toast = "You lost :(".
Proof.
  split; [by split|].
  destruct (proj2 (gameEndEventHandler_toasts sampleLowerCase
                     (controllerOf aliceWon [alice; bob] alice)) eq_refl)
    as (toast & Htoast & _ & _ & _ & Hlost).
  exists toast. split; [exact Htoast|].
  by apply (Hlost alice).
Defined.

Lemma updateFrom_turnChanged_true_witness :
  (Forall (λ mv, mv_row mv < 3)
          (movesOf (_model (controllerOf opening [alice; bob] bob)))
   ∧ Forall (λ mv, mv_row mv < 3) (movesOf afterOne)
   ∧ true ∈ turnChangedEvents
              (upd_emitted (_updateFrom GameEventTypes base_updateFrom
                              (controllerOf opening [alice; bob] bob) afterOne)))
  ∧ isPlayer (upd_controller (_updateFrom GameEventTypes base_updateFrom
                                (controllerOf opening [alice; bob] bob) afterOne))
    = true.
Proof.
  assert (Forall (λ mv, mv_row mv < 3)
            (movesOf (_model (controllerOf opening [alice; bob] bob))))
    as Hin by constructor.
  assert (Forall (λ mv, mv_row mv < 3) (movesOf afterOne))
    as Hin' by (repeat constructor; simpl; lia).
  assert (true ∈ turnChangedEvents
            (upd_emitted (_updateFrom GameEventTypes base_updateFrom
                            (controllerOf opening [alice; bob] bob) afterOne)))
    as Htrue by apply list_elem_of_here.
  split; [by split_and!|].
  by apply (updateFrom_turnChanged_true GameEventTypes base_updateFrom
              acknowledging_channel base_updateFrom_installs_model
              (controllerOf opening [alice; bob] bob) afterOne Hin Hin' Htrue).
Defined.
